(** * Attachment download job manager: a shallow embedding

    The job manager (ts/jobs/AttachmentDownloadManager.ts) schedules
    persisted attachment download jobs: it picks the highest priority
    eligible jobs from the job store, caps the number of jobs that run at
    once, retries failed jobs with exponential backoff and drops them after
    [maxAttempts]; its runner ([runDownloadAttachmentJobInner]) chooses
    which variant of an attachment to download.  Only the tests of that
    module (ts/test-electron/services/AttachmentDownloadManager_test.ts)
    are part of the sources here, so the manager, the runner and the
    backoff policy are modelled from the specification, read together with
    the tests.

    Time is an integer number of scheduler ticks; the downloader and the
    call-state predicate are inputs of the model. *)

From Stdlib Require Import String ZArith Lia.
From stdpp Require Import base list sorting strings pretty.

Open Scope Z_scope.

(** ** Attachments ([ts/types/Attachment.ts]) *)

(** What the downloader returns: where the decrypted bytes were written. *)
Record DownloadedAttachment := {
  dl_path : string;
  dl_iv : string;
  dl_plaintextHash : string;
}.

Module Attachment.
(** The attachment descriptor embedded in a job; [backupLocator] holds
    the media name of the backup copy. *)
Record AttachmentType := {
  contentType : string;
  size : Z;
  digest : string;
  backupLocator : option string;
  thumbnailFromBackup : option DownloadedAttachment;
  path : option string;
  iv : option string;
  plaintextHash : option string;
}.
End Attachment.

(** ** Jobs ([ts/types/AttachmentDownload.ts]) *)

(** A persisted download job; its identity is
    [(messageId, attachmentType, digest)]. *)
Record AttachmentDownloadJobType := {
  messageId : string;
  attachmentType : string;
  digest : string;
  receivedAt : Z;
  sentAt : Z;
  contentType : string;
  size : Z;
  active : bool;
  attempts : nat;
  retryAfter : option Z;
  lastAttemptTimestamp : option Z;
  attachment : Attachment.AttachmentType;
}.

Definition JobIdentity : Type := (string * string * string)%type.

Definition jobIdentity (j : AttachmentDownloadJobType) : JobIdentity :=
  (messageId j, attachmentType j, digest j).

Inductive AttachmentVariant := Default | ThumbnailFromBackup.

#[global] Instance AttachmentVariant_eq_dec : EqDecision AttachmentVariant.
Proof. solve_decision. Defined.

(** ** The runner ([runDownloadAttachmentJobInner]) *)

(** One call of [dependencies.downloadAttachment({ attachment, variant })]. *)
Record DownloadCall := {
  call_attachment : Attachment.AttachmentType;
  call_variant : AttachmentVariant;
}.

(** The downloader: [None] when the call throws. *)
Definition Downloader := Attachment.AttachmentType -> AttachmentVariant -> option DownloadedAttachment.

(** The runner's effects: the downloader calls made so far and either a
    value or a rejection ([None]). *)
Definition RunM (A : Type) : Type := (list DownloadCall * option A)%type.

Definition ret {A} (a : A) : RunM A := ([], Some a).
Definition throw {A} : RunM A := ([], None).

Definition bind {A B} (m : RunM A) (k : A -> RunM B) : RunM B :=
  match m with
  | (c, None) => (c, None)
  | (c, Some a) => let '(c2, r) := k a in (c ++ c2, r)
  end.

(** [try { m } catch { h }] *)
Definition try_catch {A} (m : RunM A) (h : RunM A) : RunM A :=
  match m with
  | (c, None) => let '(c2, r) := h in (c ++ c2, r)
  | (c, Some a) => (c, Some a)
  end.

Notation "x <- m ;; k" := (bind m (fun x => k))
  (at level 100, m at next level, right associativity).

Definition downloadAttachment (dl : Downloader) (attachment : Attachment.AttachmentType)
    (variant : AttachmentVariant) : RunM DownloadedAttachment :=
  ([{| call_attachment := attachment; call_variant := variant |}],
   dl attachment variant).

(** The result of one runner invocation, as the TypeScript union
    [{ onlyAttemptedBackupThumbnail: true, attachmentWithThumbnail }
     | { onlyAttemptedBackupThumbnail: false, downloadedAttachment }]. *)
Inductive DownloadAttachmentResult :=
  | OnlyBackupThumbnail (attachmentWithThumbnail : Attachment.AttachmentType)
  | FullAttempt (downloadedAttachment : Attachment.AttachmentType).

Definition onlyAttemptedBackupThumbnail (r : DownloadAttachmentResult) : bool :=
  match r with
  | OnlyBackupThumbnail _ => true
  | FullAttempt _ => false
  end.

(** [{ ...attachment, ...downloaded }]: the full download merged into the
    attachment record. *)
Definition mergeDownloaded (a : Attachment.AttachmentType) (d : DownloadedAttachment) : Attachment.AttachmentType :=
  {| Attachment.contentType := Attachment.contentType a;
     Attachment.size := Attachment.size a;
     Attachment.digest := Attachment.digest a;
     Attachment.backupLocator := Attachment.backupLocator a;
     Attachment.thumbnailFromBackup := Attachment.thumbnailFromBackup a;
     Attachment.path := Some (dl_path d); Attachment.iv := Some (dl_iv d);
     Attachment.plaintextHash := Some (dl_plaintextHash d) |}.

(** [{ ...attachment, thumbnailFromBackup: downloaded }] *)
Definition withThumbnailFromBackup (a : Attachment.AttachmentType) (d : DownloadedAttachment) : Attachment.AttachmentType :=
  {| Attachment.contentType := Attachment.contentType a;
     Attachment.size := Attachment.size a;
     Attachment.digest := Attachment.digest a;
     Attachment.backupLocator := Attachment.backupLocator a;
     Attachment.thumbnailFromBackup := Some d;
     Attachment.path := Attachment.path a; Attachment.iv := Attachment.iv a;
     Attachment.plaintextHash := Attachment.plaintextHash a |}.

Definition hasBackupLocator (a : Attachment.AttachmentType) : bool :=
  match Attachment.backupLocator a with Some _ => true | None => false end.

Definition hasThumbnailFromBackup (a : Attachment.AttachmentType) : bool :=
  match Attachment.thumbnailFromBackup a with Some _ => true | None => false end.

(** Full download of the [Default] variant. *)
Definition downloadFull (dl : Downloader) (a : Attachment.AttachmentType) : RunM DownloadAttachmentResult :=
  d <- downloadAttachment dl a Default ;;
  ret (FullAttempt (mergeDownloaded a d)).

(** Modelled from the spec: [runDownloadAttachmentJobInner] (ts/jobs/
    AttachmentDownloadManager.ts is not among the sources), following the
    variant policy of the spec's section 4.3 and the tests of
    AttachmentDownloadManager_test.ts lines 389-620. *)
Definition runDownloadAttachmentJobInner (dl : Downloader) (job : AttachmentDownloadJobType)
    (isForCurrentlyVisibleMessage : bool) : RunM DownloadAttachmentResult :=
  let attachment := attachment job in
  if isForCurrentlyVisibleMessage then
    if hasBackupLocator attachment && negb (hasThumbnailFromBackup attachment) then
      try_catch
        (t <- downloadAttachment dl attachment ThumbnailFromBackup ;;
         ret (OnlyBackupThumbnail (withThumbnailFromBackup attachment t)))
        (downloadFull dl attachment)
    else downloadFull dl attachment
  else
    try_catch
      (downloadFull dl attachment)
      (if hasBackupLocator attachment then
         t <- downloadAttachment dl attachment ThumbnailFromBackup ;;
         ret (FullAttempt (withThumbnailFromBackup attachment t))
       else throw).

(** ** Retry policy ([ts/util/exponentialBackoff.ts]) *)

Record BackoffConfig := {
  multiplier : Z;
  firstBackoffs : list Z;
  maxBackoffTime : Z;
}.

Record RetryConfig := {
  maxAttempts : nat;
  backoffConfig : BackoffConfig;
}.

(** Modelled from the spec (section 4.2): the wait before the next attempt
    of a job that has failed [attempts] times.  [attempts] is at least 1
    where the manager calls it. *)
Definition nextRetryDelay (attempts : nat) (config : BackoffConfig) : Z :=
  let numFirstBackoffs := length (firstBackoffs config) in
  if (attempts <=? numFirstBackoffs)%nat
  then nth (attempts - 1) (firstBackoffs config) 0
  else
    let lastBackoff := List.last (firstBackoffs config) 0 in
    Z.min (lastBackoff * multiplier config ^ Z.of_nat (attempts - numFirstBackoffs))
          (maxBackoffTime config).

(** ** The job manager *)

Record ManagerParams := {
  maxConcurrentJobs : nat;
  retryConfig : RetryConfig;
}.

Inductive AttachmentDownloadUrgency := STANDARD | IMMEDIATE.

(** What the runner reports back to the manager. *)
Inductive JobStatus := Finished | Retry.

Record Manager := {
  (** the persisted job rows (the store's table) *)
  jobStore : list AttachmentDownloadJobType;
  (** the in-memory active set: each job as it was handed to the runner *)
  activeJobs : list AttachmentDownloadJobType;
  (** the Visible Set *)
  visibleTimelineMessages : list string;
  (** every runner invocation with the tick it started at, oldest first;
      a [waitForJobToBeStarted] future for [(identity, attempts)] resolves
      when such a call appears *)
  runJobCalls : list (AttachmentDownloadJobType * Z);
  (** the [(identity, attempts)] pairs whose [waitForJobToBeCompleted]
      futures have been resolved *)
  completedAttempts : list (JobIdentity * nat);
}.

Definition emptyManager : Manager :=
  {| jobStore := []; activeJobs := []; visibleTimelineMessages := [];
     runJobCalls := []; completedAttempts := [] |}.

Definition setJobStore (st : list AttachmentDownloadJobType) (s : Manager) : Manager :=
  {| jobStore := st; activeJobs := activeJobs s;
     visibleTimelineMessages := visibleTimelineMessages s;
     runJobCalls := runJobCalls s; completedAttempts := completedAttempts s |}.

(** [{ ...job, active, attempts, retryAfter }] *)
Definition withRetryState (job : AttachmentDownloadJobType) (act : bool) (att : nat)
    (ra : option Z) : AttachmentDownloadJobType :=
  {| messageId := messageId job; attachmentType := attachmentType job;
     digest := digest job; receivedAt := receivedAt job; sentAt := sentAt job;
     contentType := contentType job; size := size job;
     active := act; attempts := att; retryAfter := ra;
     lastAttemptTimestamp := lastAttemptTimestamp job;
     attachment := attachment job |}.

Definition markActive (job : AttachmentDownloadJobType) : AttachmentDownloadJobType :=
  withRetryState job true (attempts job) (retryAfter job).

Definition sameIdentity (id : JobIdentity) (job : AttachmentDownloadJobType) : bool :=
  bool_decide (jobIdentity job = id).

(** [removeAttachmentDownloadJob]: delete the row(s) of an identity. *)
Definition removeJob (id : JobIdentity) (rows : list AttachmentDownloadJobType)
    : list AttachmentDownloadJobType :=
  List.filter (fun r => negb (sameIdentity id r)) rows.

(** [saveAttachmentDownloadJob]: insert the row, or overwrite the row with
    the same identity. *)
Definition saveJob (job : AttachmentDownloadJobType) (rows : list AttachmentDownloadJobType)
    : list AttachmentDownloadJobType :=
  if existsb (sameIdentity (jobIdentity job)) rows
  then map (fun r => if sameIdentity (jobIdentity job) r then job else r) rows
  else rows ++ [job].

Definition isActiveIdentity (s : Manager) (id : JobIdentity) : bool :=
  existsb (sameIdentity id) (activeJobs s).

Definition retryAfterElapsed (now : Z) (ra : option Z) : bool :=
  match ra with None => true | Some t => t <=? now end.

(** The store query's filter: not active, [retryAfter] elapsed, and not in
    the in-memory active set. *)
Definition isEligible (s : Manager) (now : Z) (job : AttachmentDownloadJobType) : bool :=
  negb (active job) && retryAfterElapsed now (retryAfter job)
  && negb (isActiveIdentity s (jobIdentity job)).

Definition isVisible (visible : list string) (job : AttachmentDownloadJobType) : bool :=
  bool_decide (messageId job ∈ visible).

(** The priority order, [prioBefore visible a b]: [a] may run before [b].
    Modelled from the spec (section 4.4, step 4): jobs of visible messages
    come before all others, and the other jobs run newest first
    ([receivedAt] descending).  Inside the visible partition the order
    follows the test "prefers jobs for visible messages" (lines 246-260),
    which expects the visible jobs oldest first ([receivedAt] ascending),
    where the spec says newest first. *)
Definition prioBefore (visible : list string) (a b : AttachmentDownloadJobType) : Prop :=
  (isVisible visible a = true /\ isVisible visible b = false)
  \/ (isVisible visible a = true /\ isVisible visible b = true /\ receivedAt a <= receivedAt b)
  \/ (isVisible visible a = false /\ isVisible visible b = false /\ receivedAt b <= receivedAt a).

#[global] Instance prioBefore_dec visible : RelDecision (prioBefore visible).
Proof. intros a b. unfold prioBefore. apply _. Defined.

(** [getNextAttachmentDownloadJobs({ limit, ... })] *)
Definition getNextJobs (s : Manager) (now : Z) (limit : nat) : list AttachmentDownloadJobType :=
  take limit (merge_sort (prioBefore (visibleTimelineMessages s))
                (List.filter (isEligible s now) (jobStore s))).

(** Mark [jobs] active in the store and in memory and hand each to the
    runner ([startJob] for each of them). *)
Definition startJobs (now : Z) (jobs : list AttachmentDownloadJobType) (s : Manager) : Manager :=
  let started := map markActive jobs in
  {| jobStore :=
       map (fun r => if existsb (sameIdentity (jobIdentity r)) jobs then markActive r else r)
         (jobStore s);
     activeJobs := activeJobs s ++ started;
     visibleTimelineMessages := visibleTimelineMessages s;
     runJobCalls := runJobCalls s ++ map (fun j => (j, now)) started;
     completedAttempts := completedAttempts s |}.

Definition availableSlots (P : ManagerParams) (s : Manager) : nat :=
  (maxConcurrentJobs P - length (activeJobs s))%nat.

(** One scheduling pass ([maybeStartJobs]): [holdOff] is the value of
    [shouldHoldOffOnStartingQueuedJobs()] at this pass. *)
Definition maybeStartJobs (P : ManagerParams) (now : Z) (holdOff : bool) (s : Manager) : Manager :=
  if holdOff then s else
  let available := availableSlots P s in
  if (available =? 0)%nat then s else
  match getNextJobs s now available with
  | [] => s
  | jobs => startJobs now jobs s
  end.

(** The manager's handling of a runner result for the active job [id]
    ([None]: no runner invocation for [id] is in flight).  The
    [(identity, attempts)] future is resolved whatever the status, as the
    tests await it for retried attempts (lines 308-322). *)
Definition onJobCompleted (P : ManagerParams) (id : JobIdentity) (status : JobStatus)
    (now : Z) (s : Manager) : option Manager :=
  match List.find (sameIdentity id) (activeJobs s) with
  | None => None
  | Some job =>
      let rows :=
        match status with
        | Finished => removeJob id (jobStore s)
        | Retry =>
            let att := S (attempts job) in
            if (maxAttempts (retryConfig P) <=? att)%nat
            then removeJob id (jobStore s)
            else saveJob (withRetryState job false att
                            (Some (now + nextRetryDelay att (backoffConfig (retryConfig P)))))
                   (jobStore s)
        end in
      Some {| jobStore := rows;
              activeJobs := removeJob id (activeJobs s);
              visibleTimelineMessages := visibleTimelineMessages s;
              runJobCalls := runJobCalls s;
              completedAttempts := completedAttempts s ++ [(id, attempts job)] |}
  end.

(** The row [addJob] persists: retry state reset. *)
Definition newJobRow (job : AttachmentDownloadJobType) : AttachmentDownloadJobType :=
  {| messageId := messageId job; attachmentType := attachmentType job;
     digest := digest job; receivedAt := receivedAt job; sentAt := sentAt job;
     contentType := contentType job; size := size job;
     active := false; attempts := 0; retryAfter := None;
     lastAttemptTimestamp := None; attachment := attachment job |}.

(** Modelled from the spec ([addJob], section 4.4): the row is saved with
    its retry state reset.  An [IMMEDIATE] job is then started at once,
    under the same call guard and concurrency cap as a pass; it is started
    on its own, ahead of the priority order, as the test "runs a job
    immediately if urgency is IMMEDIATE" (lines 217-244) expects, where the
    spec speaks of a scheduling pass. *)
Definition addJob (P : ManagerParams) (job : AttachmentDownloadJobType)
    (urgency : AttachmentDownloadUrgency) (now : Z) (holdOff : bool) (s : Manager) : Manager :=
  let row := newJobRow job in
  let s1 := setJobStore (saveJob row (jobStore s)) s in
  match urgency with
  | IMMEDIATE =>
      if holdOff then s1
      else if (availableSlots P s1 =? 0)%nat then s1
      else if isEligible s1 now row then startJobs now [row] s1
      else s1
  | STANDARD => s1
  end.

Definition updateVisibleTimelineMessages (P : ManagerParams) (ids : list string)
    (now : Z) (holdOff : bool) (s : Manager) : Manager :=
  maybeStartJobs P now holdOff
    {| jobStore := jobStore s; activeJobs := activeJobs s;
       visibleTimelineMessages := ids; runJobCalls := runJobCalls s;
       completedAttempts := completedAttempts s |}.

Inductive Event :=
  | EvAddJob (job : AttachmentDownloadJobType) (urgency : AttachmentDownloadUrgency)
      (now : Z) (holdOff : bool)
  | EvTick (now : Z) (holdOff : bool)
  | EvUpdateVisible (ids : list string) (now : Z) (holdOff : bool)
  | EvJobDone (id : JobIdentity) (status : JobStatus) (now : Z).

Definition step (P : ManagerParams) (s : Manager) (e : Event) : option Manager :=
  match e with
  | EvAddJob job u now h => Some (addJob P job u now h s)
  | EvTick now h => Some (maybeStartJobs P now h s)
  | EvUpdateVisible ids now h => Some (updateVisibleTimelineMessages P ids now h s)
  | EvJobDone id st now => onJobCompleted P id st now s
  end.

Fixpoint run (P : ManagerParams) (s : Manager) (evs : list Event) : option Manager :=
  match evs with
  | [] => Some s
  | e :: es => match step P s e with Some s' => run P s' es | None => None end
  end.

(** A test harness: a tick at every time unit, with a runner that reports
    [runner job] at the tick it was started. *)
Fixpoint completeAll (P : ManagerParams) (runner : AttachmentDownloadJobType -> JobStatus)
    (now : Z) (jobs : list AttachmentDownloadJobType) (s : Manager) : Manager :=
  match jobs with
  | [] => s
  | j :: js =>
      completeAll P runner now js
        (match onJobCompleted P (jobIdentity j) (runner j) now s with
         | Some s' => s' | None => s end)
  end.

Fixpoint drive (P : ManagerParams) (runner : AttachmentDownloadJobType -> JobStatus)
    (fuel : nat) (now : Z) (s : Manager) : Manager :=
  match fuel with
  | O => s
  | S f =>
      let s1 := maybeStartJobs P now false s in
      let started := map fst (drop (length (runJobCalls s)) (runJobCalls s1)) in
      drive P runner f (now + 1) (completeAll P runner now started s1)
  end.

(** ** Test fixtures (AttachmentDownloadManager_test.ts) *)

Definition emptyAttachment (d : string) : Attachment.AttachmentType :=
  {| Attachment.contentType := "image/png"; Attachment.size := 128;
     Attachment.digest := d; Attachment.backupLocator := None;
     Attachment.thumbnailFromBackup := None; Attachment.path := None;
     Attachment.iv := None; Attachment.plaintextHash := None |}.

Definition composeJob (msg : string) (rcv : Z) : AttachmentDownloadJobType :=
  {| messageId := msg; attachmentType := "attachment";
     digest := "digestFor" +:+ msg; receivedAt := rcv; sentAt := rcv;
     contentType := "image/png"; size := 128; active := false; attempts := 0;
     retryAfter := None; lastAttemptTimestamp := None;
     attachment := emptyAttachment ("digestFor" +:+ msg) |}.

Definition testParams : ManagerParams :=
  {| maxConcurrentJobs := 3;
     retryConfig := {| maxAttempts := 5;
                       backoffConfig := {| multiplier := 2; firstBackoffs := [60];
                                           maxBackoffTime := 600 |} |} |}.

Definition jobsN (n : nat) : list AttachmentDownloadJobType :=
  map (fun i => composeJob ("message-" +:+ pretty i) (Z.of_nat i)) (seq 0 n).

Definition addJobs (P : ManagerParams) (jobs : list AttachmentDownloadJobType) (s : Manager) : Manager :=
  foldl (fun acc j => addJob P j STANDARD 0 false acc) s jobs.

(** The retry state of each runner call: message id, attempts, start tick. *)
Definition callLog (s : Manager) : list (string * nat * Z) :=
  map (fun c => (messageId (fst c), attempts (fst c), snd c)) (runJobCalls s).

(** "runs a job immediately if urgency is IMMEDIATE": six jobs, the first
    three started and finished at tick 0, then an urgent job for an old
    message. *)
Definition urgentJob : AttachmentDownloadJobType := composeJob "message-urgent" 0.

Definition afterUrgentAdd : Manager :=
  addJob testParams urgentJob IMMEDIATE 1 false
    (drive testParams (fun _ => Finished) 1 0 (addJobs testParams (jobsN 6) emptyManager)).

(** [omit(attachment, 'thumbnailFromBackup')] *)
Definition omitThumbnail (a : Attachment.AttachmentType) : Attachment.AttachmentType :=
  {| Attachment.contentType := Attachment.contentType a;
     Attachment.size := Attachment.size a;
     Attachment.digest := Attachment.digest a;
     Attachment.backupLocator := Attachment.backupLocator a;
     Attachment.thumbnailFromBackup := None;
     Attachment.path := Attachment.path a; Attachment.iv := Attachment.iv a;
     Attachment.plaintextHash := Attachment.plaintextHash a |}.

(** A job for a backed-up attachment, and downloaders as the tests stub them. *)
Definition backupJob : AttachmentDownloadJobType :=
  let j := composeJob "1" 1 in
  {| messageId := messageId j; attachmentType := attachmentType j; digest := digest j;
     receivedAt := 1; sentAt := 1; contentType := contentType j; size := size j;
     active := false; attempts := 0; retryAfter := None; lastAttemptTimestamp := None;
     attachment :=
       {| Attachment.contentType := "image/png"; Attachment.size := 128;
          Attachment.digest := "digestFor1"; Attachment.backupLocator := Some "medianame";
          Attachment.thumbnailFromBackup := None; Attachment.path := None;
          Attachment.iv := None; Attachment.plaintextHash := None |} |}.

Definition stubResult : DownloadedAttachment :=
  {| dl_path := "/path/to/file"; dl_iv := "iv"; dl_plaintextHash := "plaintextHash" |}.

Definition okDownloader : Downloader := fun _ _ => Some stubResult.
Definition failingDownloader : Downloader := fun _ _ => None.
Definition defaultFailsDownloader : Downloader :=
  fun _ v => match v with Default => None | ThumbnailFromBackup => Some stubResult end.


(** One job that always fails, run under [P] from tick 0. *)
Definition failingRun (P : ManagerParams) (fuel : nat) : Manager :=
  drive P (fun _ => Retry) fuel 0 (addJob P (composeJob "message-0" 0) STANDARD 0 false emptyManager).



(** The same job under [testParams], started for its fifth and last attempt
    at tick 900. *)
Definition lastAttemptState : Manager :=
  maybeStartJobs testParams 900 false (failingRun testParams 900).

Definition lastAttemptJob : AttachmentDownloadJobType :=
  Eval vm_compute in
    match List.find (sameIdentity (jobIdentity (composeJob "message-0" 0)))
            (activeJobs lastAttemptState) with
    | Some j => j
    | None => composeJob "message-0" 0
    end.

(** The job after one failed attempt: [attempts = 1], [retryAfter = 60]. *)
Definition retriedOnce : Manager := failingRun testParams 1.

Definition retriedOnceRow : AttachmentDownloadJobType :=
  Eval vm_compute in nth 0 (jobStore retriedOnce) (composeJob "" 0).

(** ** Schedules and logs used by the statements *)



(** The jobs handed to the runner for their first attempt, in call order. *)
Definition firstDispatches (s : Manager) : list AttachmentDownloadJobType :=
  List.filter (fun j => (attempts j =? 0)%nat) (map fst (runJobCalls s)).

(** Events that only advance the queue: ticks and job completions. *)
Definition schedulingEvent (e : Event) : bool :=
  match e with EvTick _ _ | EvJobDone _ _ _ => true | _ => false end.

Definition finishedOnly (e : Event) : bool :=
  match e with EvJobDone _ Retry _ => false | _ => true end.

(** ** Invariants of the scheduling loop *)

(** A stored row that has never been handed to the runner. *)
Definition pendingFresh (s : Manager) (r : AttachmentDownloadJobType) : Prop :=
  In r (jobStore s) /\ attempts r = 0%nat /\ active r = false.

(** [x] carries the identity and [receivedAt] of one of the added [jobs]. *)
Definition originIn (jobs : list AttachmentDownloadJobType) (x : AttachmentDownloadJobType) : Prop :=
  exists j, In j jobs /\ jobIdentity x = jobIdentity j /\ receivedAt x = receivedAt j.

(** A row as [addJob] stores it for one of [all]. *)
Definition freshRow (all : list AttachmentDownloadJobType) (r : AttachmentDownloadJobType) : Prop :=
  attempts r = 0%nat /\ active r = false /\ retryAfter r = None /\ originIn all r.

(** What ticks and completions preserve once [jobs] have been added and the
    visible set is [vis]: the first dispatches so far are in priority order
    and precede every fresh row still waiting. *)
Record QueueInv (vis : list string) (jobs : list AttachmentDownloadJobType) (s : Manager) : Prop := {
  qi_vis : visibleTimelineMessages s = vis;
  qi_fresh : forall r, pendingFresh s r ->
    retryAfter r = None /\ isActiveIdentity s (jobIdentity r) = false;
  qi_sorted : StronglySorted (prioBefore vis) (firstDispatches s);
  qi_before : forall e r, In e (firstDispatches s) -> pendingFresh s r ->
    prioBefore vis e r /\ jobIdentity e <> jobIdentity r;
  qi_nodup_first : List.NoDup (map jobIdentity (firstDispatches s));
  qi_nodup_store : List.NoDup (map jobIdentity (jobStore s));
  qi_origin : forall x,
    In x (jobStore s) \/ In x (activeJobs s) \/ In x (map fst (runJobCalls s)) -> originIn jobs x
}.

(** ** Helpers of the tests (AttachmentDownloadManager_test.ts) *)

(** The string [assertRunJobCalledWith] builds for a job (lines 151 and 155):
    [`${messageId}${attachmentType}.${digest}`]. *)
Definition callKey (job : AttachmentDownloadJobType) : string :=
  messageId job +:+ attachmentType job +:+ "." +:+ digest job.

(** [assertRunJobCalledWith(jobs)] (lines 144-158): the keys of the runner
    calls, in call order, are those of [jobs].  The two sides are compared
    as [JSON.stringify] of string arrays, which are equal exactly when the
    arrays are. *)
Definition assertRunJobCalledWith (s : Manager) (jobs : list AttachmentDownloadJobType) : bool :=
  bool_decide (map (fun call => callKey (fst call)) (runJobCalls s) = map callKey jobs).

(** [downloadManager?.tickInterval ?? 1000] *)
Definition tickIntervalOr (tickInterval : option Z) : Z :=
  match tickInterval with Some t => t | None => 1000 end.

(** The loop of [advanceTime] (lines 160-173):
    [while (Date.now() < now + ms) await clock.tickAsync(interval)], for an
    interval the fake clock accepts (not negative).  The result lists the
    clock after each tick; [None] when the loop has not ended within [fuel]
    iterations. *)
Fixpoint advanceLoop (fuel : nat) (interval clock target : Z) : option (list Z) :=
  match fuel with
  | O => None
  | S f =>
      if clock <? target
      then option_map (cons (clock + interval)) (advanceLoop f interval (clock + interval) target)
      else Some []
  end.

Definition advanceTime (fuel : nat) (tickInterval : option Z) (now ms : Z) : option (list Z) :=
  advanceLoop fuel (tickIntervalOr tickInterval) now (now + ms).

(** The two futures [getPromisesForAttempts] creates for one attempt, each
    keyed by the identity and the [attempts] of [{ ...job, attempts: idx }]. *)
Record AttemptPromises := {
  started : JobIdentity * nat;
  completed : JobIdentity * nat;
}.

(** [getPromisesForAttempts(job, attempts)] (lines 175-185) *)
Definition getPromisesForAttempts (job : AttachmentDownloadJobType) (attempts : nat)
    : list AttemptPromises :=
  map (fun idx =>
         let j := withRetryState job (active job) idx (retryAfter job) in
         {| started := (jobIdentity j, idx); completed := (jobIdentity j, idx) |})
    (seq 0 attempts).

(** A runner call seen as the [(identity, attempts)] key of its
    [waitForJobToBeStarted] future. *)
Definition startedKey (call : AttachmentDownloadJobType * Z) : JobIdentity * nat :=
  (jobIdentity (fst call), attempts (fst call)).

(** A job shaped as [composeJob] shapes it: attachment type
    ["attachment"] and digest ["digestFor" + messageId]. *)
Definition composedShape (job : AttachmentDownloadJobType) : bool :=
  bool_decide (attachmentType job = "attachment")
  && bool_decide (digest job = "digestFor" +:+ messageId job).

(** A downloader call that throws. *)
Definition callFailed (dl : Downloader) (call : DownloadCall) : bool :=
  match dl (call_attachment call) (call_variant call) with None => true | Some _ => false end.

(** At most one stored row and at most one active job per identity. *)
Definition uniqueJobs (s : Manager) : Prop :=
  List.NoDup (map jobIdentity (jobStore s)) /\ List.NoDup (map jobIdentity (activeJobs s)).

(** ** The manager tests replayed on the model *)

(** "runs 3 jobs at a time in descending receivedAt order" *)
Example test_descending_order :
  callLog (drive testParams (fun _ => Finished) 3 0 (addJobs testParams (jobsN 5) emptyManager))
  = [("message-4", 0%nat, 0); ("message-3", 0%nat, 0); ("message-2", 0%nat, 0);
     ("message-1", 0%nat, 1); ("message-0", 0%nat, 1)].
Proof. vm_compute. reflexivity. Qed.

(** "handles retries for failed": gaps of 60, 120, 240 and 480 ticks. *)
Example test_retries :
  callLog (drive testParams
             (fun j => if bool_decide (messageId j = "message-0") then Finished else Retry)
             1000 0 (addJobs testParams (jobsN 2) emptyManager))
  = [("message-1", 0%nat, 0); ("message-0", 0%nat, 0); ("message-1", 1%nat, 60);
     ("message-1", 2%nat, 180); ("message-1", 3%nat, 420); ("message-1", 4%nat, 900)].
Proof. vm_compute. reflexivity. Qed.

(** "prefers jobs for visible messages" *)
Example test_visible_first :
  callLog (drive testParams (fun _ => Finished) 3 0
             (updateVisibleTimelineMessages testParams ["message-0"; "message-1"] 0 true
                (addJobs testParams (jobsN 5) emptyManager)))
  = [("message-0", 0%nat, 0); ("message-1", 0%nat, 0); ("message-4", 0%nat, 0);
     ("message-3", 0%nat, 1); ("message-2", 0%nat, 1)].
Proof. vm_compute. reflexivity. Qed.

Example test_immediate :
  callLog (drive testParams (fun _ => Finished) 3 1 afterUrgentAdd)
  = [("message-5", 0%nat, 0); ("message-4", 0%nat, 0); ("message-3", 0%nat, 0);
     ("message-urgent", 0%nat, 1); ("message-2", 0%nat, 1); ("message-1", 0%nat, 1);
     ("message-0", 0%nat, 2)].
Proof. vm_compute. reflexivity. Qed.

(** ** Properties *)

Section Runner.
Variable dl : Downloader.
Variable job : AttachmentDownloadJobType.

(** C4: for a visible message whose attachment has a backup locator and
    no thumbnail yet, the first downloader call asks for the backup
    thumbnail; when it succeeds nothing else is downloaded and the result
    is thumbnail-only; when it throws exactly one [Default] call follows,
    and when that throws too the invocation rejects. *)
Theorem visible_backup_thumbnail_first
    (Hloc : hasBackupLocator (attachment job) = true)
    (Hthumb : Attachment.thumbnailFromBackup (attachment job) = None) :
  let r := runDownloadAttachmentJobInner dl job true in
  Forall (fun c => call_attachment c = attachment job) r.1 /\
  head (map call_variant r.1) = Some ThumbnailFromBackup /\
  (forall t, dl (attachment job) ThumbnailFromBackup = Some t ->
     map call_variant r.1 = [ThumbnailFromBackup] /\
     option_map onlyAttemptedBackupThumbnail r.2 = Some true) /\
  (dl (attachment job) ThumbnailFromBackup = None ->
     map call_variant r.1 = [ThumbnailFromBackup; Default] /\
     (dl (attachment job) Default = None -> r.2 = None)).
Proof.
  unfold runDownloadAttachmentJobInner, hasThumbnailFromBackup, downloadFull,
    try_catch, bind, downloadAttachment, ret.
  rewrite Hloc, Hthumb. simpl.
  destruct (dl (attachment job) ThumbnailFromBackup) as [t|] eqn:Ht;
    destruct (dl (attachment job) Default) as [d|] eqn:Hd; simpl;
    (split; [repeat (apply List.Forall_cons; [reflexivity|]); apply List.Forall_nil|]);
    (split; [reflexivity|]);
    split; intros; try discriminate; split; auto; intros; discriminate.
Qed.

(** C5: for a message that is not visible the first downloader call asks
    for the [Default] variant; when it throws and the attachment has a
    backup locator, exactly one more call asks for the backup thumbnail
    and its success gives a result that is not thumbnail-only; without a
    backup locator the single failure rejects the invocation. *)
Theorem hidden_default_first_then_thumbnail :
  let r := runDownloadAttachmentJobInner dl job false in
  Forall (fun c => call_attachment c = attachment job) r.1 /\
  head (map call_variant r.1) = Some Default /\
  (dl (attachment job) Default = None -> hasBackupLocator (attachment job) = true ->
     map call_variant r.1 = [Default; ThumbnailFromBackup] /\
     (forall t, dl (attachment job) ThumbnailFromBackup = Some t ->
        option_map onlyAttemptedBackupThumbnail r.2 = Some false)) /\
  (dl (attachment job) Default = None -> hasBackupLocator (attachment job) = false ->
     map call_variant r.1 = [Default] /\ r.2 = None).
Proof.
  unfold runDownloadAttachmentJobInner, downloadFull, try_catch, bind,
    downloadAttachment, ret, throw.
  destruct (hasBackupLocator (attachment job)) eqn:Hloc;
    destruct (dl (attachment job) ThumbnailFromBackup) as [t|] eqn:Ht;
    destruct (dl (attachment job) Default) as [d|] eqn:Hd; simpl;
    (split; [repeat (apply List.Forall_cons; [reflexivity|]); apply List.Forall_nil|]);
    (split; [reflexivity|]);
    split; intros; try discriminate; split; auto; intros; discriminate.
Qed.

(** C10: the thumbnail-only result of a visible message's backed-up
    attachment is the input attachment with just [thumbnailFromBackup]
    added, whose path is the one the downloader returned. *)
Theorem thumbnail_result_keeps_attachment
    (Hloc : hasBackupLocator (attachment job) = true)
    (Hthumb : Attachment.thumbnailFromBackup (attachment job) = None)
    (t : DownloadedAttachment)
    (Hdl : dl (attachment job) ThumbnailFromBackup = Some t) :
  exists a,
    (runDownloadAttachmentJobInner dl job true).2 = Some (OnlyBackupThumbnail a) /\
    omitThumbnail a = attachment job /\
    option_map dl_path (Attachment.thumbnailFromBackup a) = Some (dl_path t).
Proof.
  unfold runDownloadAttachmentJobInner, hasThumbnailFromBackup, try_catch, bind,
    downloadAttachment, ret.
  rewrite Hloc, Hthumb, Hdl. simpl.
  eexists. split; [reflexivity|]. split; [|reflexivity].
  destruct (attachment job); simpl in *. subst. reflexivity.
Qed.
End Runner.

Lemma visible_backup_thumbnail_first_witness :
  hasBackupLocator (attachment backupJob) = true /\
  Attachment.thumbnailFromBackup (attachment backupJob) = None /\
  option_map onlyAttemptedBackupThumbnail
    (runDownloadAttachmentJobInner okDownloader backupJob true).2 = Some true.
Proof.
  split; [reflexivity|]. split; [reflexivity|].
  destruct (visible_backup_thumbnail_first okDownloader backupJob eq_refl eq_refl)
    as (_ & _ & Hok & _).
  apply (Hok stubResult). reflexivity.
Defined.

Lemma thumbnail_result_keeps_attachment_witness :
  exists a,
    (runDownloadAttachmentJobInner okDownloader backupJob true).2 = Some (OnlyBackupThumbnail a) /\
    omitThumbnail a = attachment backupJob /\
    option_map dl_path (Attachment.thumbnailFromBackup a) = Some "/path/to/file".
Proof.
  apply (thumbnail_result_keeps_attachment okDownloader backupJob eq_refl eq_refl stubResult).
  reflexivity.
Defined.

(** *** Store and active-set helpers *)

Lemma sameIdentity_spec id r : sameIdentity id r = true <-> jobIdentity r = id.
Proof. unfold sameIdentity. apply bool_decide_eq_true. Qed.

Lemma removeJob_In id rows r : In r (removeJob id rows) <-> In r rows /\ jobIdentity r <> id.
Proof.
  unfold removeJob. rewrite filter_In, negb_true_iff.
  split; intros [H1 H2]; split; auto.
  - intros E. apply sameIdentity_spec in E. congruence.
  - destruct (sameIdentity id r) eqn:E; auto. apply sameIdentity_spec in E. congruence.
Qed.

Lemma existsb_removeJob id rows : existsb (sameIdentity id) (removeJob id rows) = false.
Proof.
  apply not_true_iff_false. rewrite existsb_exists.
  intros (r & Hin & Hs). apply removeJob_In in Hin as [_ Hne].
  apply sameIdentity_spec in Hs. congruence.
Qed.

Lemma find_saveJob job rows :
  List.find (sameIdentity (jobIdentity job)) (saveJob job rows) = Some job.
Proof.
  assert (Hself : sameIdentity (jobIdentity job) job = true) by (apply sameIdentity_spec; auto).
  unfold saveJob. destruct (existsb _ rows) eqn:E.
  - induction rows as [|r rows IH]; simpl in *; [discriminate|].
    destruct (sameIdentity (jobIdentity job) r) eqn:Er; simpl.
    + rewrite Hself. reflexivity.
    + rewrite Er. auto.
  - induction rows as [|r rows IH]; simpl in *.
    + rewrite Hself. reflexivity.
    + apply orb_false_iff in E as [E1 E2]. rewrite E1. auto.
Qed.

Lemma jobIdentity_newJobRow job : jobIdentity (newJobRow job) = jobIdentity job.
Proof. reflexivity. Qed.

Lemma jobIdentity_withRetryState job b n ra :
  jobIdentity (withRetryState job b n ra) = jobIdentity job.
Proof. reflexivity. Qed.

Lemma maybeStartJobs_holdOff P now s : maybeStartJobs P now true s = s.
Proof. reflexivity. Qed.

Section Manager.
Variable P : ManagerParams.

(** C7: dropping a job after its last allowed attempt is not an error and
    does what a terminal success does: the future of the final
    [(identity, attempts)] pair is resolved, the row is removed from the
    store and the job leaves the active set. *)
Theorem drop_after_max_attempts_resolves (id : JobIdentity) (now : Z) (s : Manager)
    (job : AttachmentDownloadJobType)
    (Hactive : List.find (sameIdentity id) (activeJobs s) = Some job)
    (Hlast : (maxAttempts (retryConfig P) <= S (attempts job))%nat) :
  exists s',
    onJobCompleted P id Retry now s = Some s' /\
    onJobCompleted P id Finished now s = Some s' /\
    In (id, attempts job) (completedAttempts s') /\
    (forall r, In r (jobStore s') -> jobIdentity r <> id) /\
    isActiveIdentity s' id = false.
Proof.
  unfold onJobCompleted. rewrite Hactive.
  apply Nat.leb_le in Hlast. rewrite Hlast.
  eexists. split; [reflexivity|]. split; [reflexivity|]. simpl.
  split; [apply in_or_app; right; left; reflexivity|].
  split.
  - intros r Hr. apply removeJob_In in Hr. tauto.
  - apply existsb_removeJob.
Qed.


Lemma getNextJobs_Permutation (s : Manager) (now : Z) :
  merge_sort (prioBefore (visibleTimelineMessages s)) (List.filter (isEligible s now) (jobStore s))
    ≡ₚ List.filter (isEligible s now) (jobStore s).
Proof. apply merge_sort_Permutation. Qed.

Lemma find_app_skip (p : AttachmentDownloadJobType -> bool) l1 l2 :
  existsb p l1 = false -> List.find p (l1 ++ l2) = List.find p l2.
Proof.
  induction l1 as [|x l1 IH]; simpl; auto.
  intros E. apply orb_false_iff in E as [E1 E2]. rewrite E1. auto.
Qed.

(** C6: adding a job again whose earlier copy has failed some attempts and
    waits for its [retryAfter] saves it with no attempts and no
    [retryAfter], so that it is eligible at any tick; when it is started
    and fails again, its next wait is [firstBackoffs[0]]. *)
Theorem readd_resets_attempts (s : Manager) (job old : AttachmentDownloadJobType)
    (now t t2 ra : Z) (holdOff : bool)
    (Hold : In old (jobStore s)) (Hid : jobIdentity old = jobIdentity job)
    (Hatt : (0 < attempts old)%nat) (Hra : retryAfter old = Some ra)
    (Hidle : isActiveIdentity s (jobIdentity job) = false) :
  let s' := addJob P job STANDARD now holdOff s in
  List.find (sameIdentity (jobIdentity job)) (jobStore s') = Some (newJobRow job) /\
  attempts (newJobRow job) = 0%nat /\
  retryAfter (newJobRow job) = None /\
  isEligible s' t (newJobRow job) = true /\
  (firstBackoffs (backoffConfig (retryConfig P)) <> [] ->
   (1 < maxAttempts (retryConfig P))%nat ->
   exists s3 r3,
     onJobCompleted P (jobIdentity job) Retry t2 (startJobs t [newJobRow job] s') = Some s3 /\
     List.find (sameIdentity (jobIdentity job)) (jobStore s3) = Some r3 /\
     attempts r3 = 1%nat /\
     retryAfter r3 = Some (t2 + nth 0 (firstBackoffs (backoffConfig (retryConfig P))) 0)).
Proof.
  simpl. split.
  { change (jobIdentity job) with (jobIdentity (newJobRow job)). apply find_saveJob. }
  split; [reflexivity|]. split; [reflexivity|].
  split.
  { unfold isEligible. change (jobIdentity (newJobRow job)) with (jobIdentity job).
    unfold isActiveIdentity in *. cbn [activeJobs setJobStore active retryAfter newJobRow].
    rewrite Hidle. reflexivity. }
  intros Hfb Hmax.
  unfold onJobCompleted, startJobs. cbn [activeJobs setJobStore].
  rewrite find_app_skip by exact Hidle. cbn [List.find map].
  assert (Hs : sameIdentity (jobIdentity job) (markActive (newJobRow job)) = true)
    by (apply sameIdentity_spec; reflexivity).
  rewrite Hs. cbn [attempts markActive withRetryState newJobRow].
  replace ((maxAttempts (retryConfig P) <=? 1)%nat) with false
    by (symmetry; apply Nat.leb_gt; lia).
  eexists. eexists. split; [reflexivity|]. cbn [jobStore].
  split.
  { match goal with |- context [saveJob ?r _] =>
      change (jobIdentity job) with (jobIdentity r) end.
    apply find_saveJob. }
  split; [reflexivity|]. cbn [retryAfter withRetryState].
  unfold nextRetryDelay.
  destruct (firstBackoffs (backoffConfig (retryConfig P))) as [|b bs]; [contradiction|].
  reflexivity.
Qed.
(** *** One job retried until it is dropped *)

Lemma merge_sort_nil (vis : list string) :
  merge_sort (prioBefore vis) (@nil AttachmentDownloadJobType) = [].
Proof. reflexivity. Qed.

Lemma drive_step (runner : AttachmentDownloadJobType -> JobStatus) (f : nat) (now : Z) (s : Manager) :
  drive P runner (S f) now s
  = drive P runner f (now + 1)
      (completeAll P runner now
         (map fst (drop (length (runJobCalls s)) (runJobCalls (maybeStartJobs P now false s))))
         (maybeStartJobs P now false s)).
Proof. reflexivity. Qed.

Lemma drive_quiet (runner : AttachmentDownloadJobType -> JobStatus) (f : nat) (now : Z) (s : Manager) :
  maybeStartJobs P now false s = s ->
  drive P runner (S f) now s = drive P runner f (now + 1) s.
Proof.
  intros Hq. rewrite drive_step, Hq, drop_all. reflexivity.
Qed.

Lemma pass_single_waiting (now : Z) (s : Manager) (r : AttachmentDownloadJobType) :
  jobStore s = [r] -> activeJobs s = [] ->
  retryAfterElapsed now (retryAfter r) = false ->
  maybeStartJobs P now false s = s.
Proof.
  intros Hst Hact Hra. unfold maybeStartJobs. simpl.
  destruct (_ =? 0)%nat; auto.
  unfold getNextJobs. rewrite Hst. simpl. unfold isEligible. rewrite Hra.
  rewrite andb_false_r. simpl. rewrite merge_sort_nil, take_nil. reflexivity.
Qed.

Lemma pass_empty (now : Z) (s : Manager) :
  jobStore s = [] -> maybeStartJobs P now false s = s.
Proof.
  intros Hst. unfold maybeStartJobs. simpl.
  destruct (_ =? 0)%nat; auto.
  unfold getNextJobs. rewrite Hst. simpl. rewrite merge_sort_nil, take_nil. reflexivity.
Qed.

Lemma drive_empty (runner : AttachmentDownloadJobType -> JobStatus) (f : nat) :
  forall now s, jobStore s = [] -> drive P runner f now s = s.
Proof.
  induction f as [|f IH]; intros now s Hst; [reflexivity|].
  rewrite drive_quiet by (apply pass_empty; auto). apply IH; auto.
Qed.

Lemma drive_waiting (runner : AttachmentDownloadJobType -> JobStatus) (r : AttachmentDownloadJobType)
    (i : nat) :
  forall f now s, jobStore s = [r] -> activeJobs s = [] ->
  (forall j, (j < i)%nat -> retryAfterElapsed (now + Z.of_nat j) (retryAfter r) = false) ->
  (i <= f)%nat ->
  drive P runner f now s = drive P runner (f - i) (now + Z.of_nat i) s.
Proof.
  induction i as [|i IH]; intros f now s Hst Hact Hwait Hf.
  - rewrite Nat.sub_0_r, Z.add_0_r. reflexivity.
  - destruct f as [|f]; [lia|].
    rewrite drive_quiet.
    2: { apply (pass_single_waiting now s r); auto.
         specialize (Hwait 0%nat ltac:(lia)). rewrite Z.add_0_r in Hwait. auto. }
    rewrite (IH f (now + 1) s); auto; [| |lia].
    + simpl. f_equal. lia.
    + intros j Hj. rewrite <- Z.add_assoc.
      replace (1 + Z.of_nat j) with (Z.of_nat (S j)) by lia. apply Hwait. lia.
Qed.

Lemma pass_single_ready (now : Z) (s : Manager) (r : AttachmentDownloadJobType) :
  (1 <= maxConcurrentJobs P)%nat ->
  jobStore s = [r] -> activeJobs s = [] -> active r = false ->
  retryAfterElapsed now (retryAfter r) = true ->
  maybeStartJobs P now false s = startJobs now [r] s.
Proof.
  intros Hcap Hst Hact Hr Hra. unfold maybeStartJobs, availableSlots. simpl.
  rewrite Hact. simpl. rewrite Nat.sub_0_r.
  destruct (maxConcurrentJobs P) as [|c] eqn:Ec; [lia|]. simpl.
  unfold getNextJobs. rewrite Hst. simpl.
  unfold isEligible, isActiveIdentity. rewrite Hr, Hra, Hact. simpl.
  rewrite take_nil. reflexivity.
Qed.

Lemma complete_single_retry (now : Z) (s : Manager) (r : AttachmentDownloadJobType) :
  jobStore s = [r] -> activeJobs s = [] ->
  let s2 := completeAll P (fun _ => Retry) now [markActive r] (startJobs now [r] s) in
  activeJobs s2 = [] /\
  runJobCalls s2 = runJobCalls s ++ [(markActive r, now)] /\
  jobStore s2 =
    (if (maxAttempts (retryConfig P) <=? S (attempts r))%nat then []
     else [withRetryState (markActive r) false (S (attempts r))
             (Some (now + nextRetryDelay (S (attempts r)) (backoffConfig (retryConfig P))))]).
Proof.
  intros Hst Hact.
  unfold completeAll, onJobCompleted, startJobs, removeJob, saveJob.
  rewrite Hst, Hact. simpl.
  unfold sameIdentity, jobIdentity, markActive, withRetryState. simpl.
  rewrite !bool_decide_true by reflexivity. simpl.
  split; [reflexivity|]. split; [reflexivity|].
  destruct (_ <=? _)%nat; simpl; [reflexivity|].
  reflexivity.
Qed.

(** *** Priority order and sorted lists *)

Lemma SS_map {A B} (R : A -> A -> Prop) (R' : B -> B -> Prop) (f : A -> B) (l : list A) :
  (forall x y, R x y -> R' (f x) (f y)) ->
  StronglySorted R l -> StronglySorted R' (map f l).
Proof.
  intros HR Hs. induction Hs as [|x l Hs IH Hall]; simpl; constructor; auto.
  apply List.Forall_forall. intros y Hy. apply in_map_iff in Hy as (z & <- & Hz).
  apply HR. rewrite List.Forall_forall in Hall. auto.
Qed.

Lemma SS_filter {A} (R : A -> A -> Prop) (p : A -> bool) (l : list A) :
  StronglySorted R l -> StronglySorted R (List.filter p l).
Proof.
  intros Hs. induction Hs as [|x l Hs IH Hall]; simpl; [constructor|].
  destruct (p x); [|auto]. constructor; auto.
  apply List.Forall_forall. intros y Hy. apply filter_In in Hy as [Hy _].
  rewrite List.Forall_forall in Hall. auto.
Qed.

Lemma SS_app {A} (R : A -> A -> Prop) (l1 l2 : list A) :
  StronglySorted R (l1 ++ l2) <->
  StronglySorted R l1 /\ StronglySorted R l2 /\ (forall x y, In x l1 -> In y l2 -> R x y).
Proof.
  induction l1 as [|a l1 IH]; simpl.
  - split; [intros H; repeat split; auto; [constructor|tauto] | tauto].
  - split.
    + intros H. apply StronglySorted_inv in H as [H Hall].
      apply IH in H as (H1 & H2 & H3). rewrite List.Forall_forall in Hall.
      repeat split; auto.
      * constructor; auto. apply List.Forall_forall. intros y Hy. apply Hall, in_or_app; auto.
      * intros x y [<-|Hx] Hy; auto. apply Hall, in_or_app; auto.
    + intros (H1 & H2 & H3). apply StronglySorted_inv in H1 as [H1 Hall].
      rewrite List.Forall_forall in Hall. constructor.
      * apply IH. repeat split; auto.
      * apply List.Forall_forall. intros y Hy. apply in_app_or in Hy as [Hy|Hy]; auto.
Qed.

Lemma prioBefore_congr (vis : list string) (a a' b b' : AttachmentDownloadJobType) :
  messageId a = messageId a' -> receivedAt a = receivedAt a' ->
  messageId b = messageId b' -> receivedAt b = receivedAt b' ->
  prioBefore vis a b -> prioBefore vis a' b'.
Proof.
  unfold prioBefore, isVisible. intros Ha Hra Hb Hrb. rewrite <- Ha, <- Hra, <- Hb, <- Hrb.
  auto.
Qed.

Lemma prioBefore_markActive (vis : list string) (a b : AttachmentDownloadJobType) :
  prioBefore vis a b -> prioBefore vis (markActive a) (markActive b).
Proof. apply prioBefore_congr; reflexivity. Qed.

#[local] Instance prioBefore_trans (vis : list string) : Transitive (prioBefore vis).
Proof.
  intros a b c. unfold prioBefore.
  destruct (isVisible vis a), (isVisible vis b), (isVisible vis c);
    intros Hab Hbc; naive_solver lia.
Qed.

#[local] Instance prioBefore_total (vis : list string) : Total (prioBefore vis).
Proof.
  intros a b. unfold prioBefore.
  destruct (isVisible vis a), (isVisible vis b); naive_solver lia.
Qed.

Lemma getNextJobs_sorted (s : Manager) (now : Z) (limit : nat) :
  StronglySorted (prioBefore (visibleTimelineMessages s))
    (merge_sort (prioBefore (visibleTimelineMessages s))
       (List.filter (isEligible s now) (jobStore s))).
Proof. apply StronglySorted_merge_sort; apply _. Qed.
(** *** Facts about one scheduling pass *)

Lemma NoDup_map_filter {A B} (f : A -> B) (p : A -> bool) (l : list A) :
  List.NoDup (map f l) -> List.NoDup (map f (List.filter p l)).
Proof.
  induction l as [|a l IH]; simpl; intros H; [constructor|].
  inversion H as [|x y Hn Hd]; subst.
  destruct (p a); simpl; auto. constructor; auto.
  intros Hin. apply Hn. apply in_map_iff in Hin as (z & Hz & Hin).
  apply filter_In in Hin as [Hin _]. rewrite <- Hz. apply in_map; auto.
Qed.

Lemma existsb_sameIdentity_false (id : JobIdentity) (l : list AttachmentDownloadJobType) :
  existsb (sameIdentity id) l = false <-> (forall x, In x l -> jobIdentity x <> id).
Proof.
  split.
  - intros H x Hx Heq. assert (existsb (sameIdentity id) l = true); [|congruence].
    apply existsb_exists. exists x. split; auto. apply sameIdentity_spec; auto.
  - intros H. destruct (existsb (sameIdentity id) l) eqn:E; auto.
    apply existsb_exists in E as (x & Hx & Hs). apply sameIdentity_spec in Hs.
    exfalso. apply (H x); auto.
Qed.

Lemma existsb_map_markActive (id : JobIdentity) (l : list AttachmentDownloadJobType) :
  existsb (sameIdentity id) (map markActive l) = existsb (sameIdentity id) l.
Proof. induction l as [|a l IH]; simpl; auto. rewrite IH. reflexivity. Qed.

Lemma originIn_congr (jobs : list AttachmentDownloadJobType) (a b : AttachmentDownloadJobType) :
  originIn jobs a -> jobIdentity b = jobIdentity a -> receivedAt b = receivedAt a ->
  originIn jobs b.
Proof. intros (j & Hj & Hi & Hr) Hib Hrb. exists j. split; [auto|]. split; congruence. Qed.

Lemma firstDispatches_startJobs (now : Z) (js : list AttachmentDownloadJobType) (s : Manager) :
  firstDispatches (startJobs now js s)
  = firstDispatches s ++ List.filter (fun j => (attempts j =? 0)%nat) (map markActive js).
Proof.
  unfold firstDispatches, startJobs. cbn [runJobCalls].
  rewrite map_app, List.filter_app, !map_map. reflexivity.
Qed.

(** The row a pass leaves in the store for [r]. *)
Lemma pendingFresh_startJobs (now : Z) (js : list AttachmentDownloadJobType) (s : Manager)
    (r : AttachmentDownloadJobType) :
  pendingFresh (startJobs now js s) r ->
  pendingFresh s r /\ existsb (sameIdentity (jobIdentity r)) js = false.
Proof.
  intros (Hin & Ha & Hact). cbn [startJobs jobStore] in Hin.
  apply in_map_iff in Hin as (r0 & Hr0 & Hin).
  destruct (existsb (sameIdentity (jobIdentity r0)) js) eqn:E; subst.
  - discriminate.
  - split; [split; auto|auto].
Qed.

Lemma store_startJobs_identity (now : Z) (js : list AttachmentDownloadJobType) (s : Manager) :
  map jobIdentity (jobStore (startJobs now js s)) = map jobIdentity (jobStore s).
Proof.
  cbn [startJobs jobStore]. rewrite map_map. apply map_ext. intros r.
  destruct (existsb _ js); reflexivity.
Qed.
Lemma startJobs_QueueInv (vis : list string) (jobs : list AttachmentDownloadJobType)
    (now : Z) (k : nat) (s : Manager) :
  QueueInv vis jobs s ->
  QueueInv vis jobs
    (startJobs now (take k (merge_sort (prioBefore (visibleTimelineMessages s))
                               (List.filter (isEligible s now) (jobStore s)))) s).
Proof.
  intros I. pose proof (getNextJobs_sorted s now k) as Hsort.
  destruct I as [Hvis Hfresh Hsorted Hbefore Hnd1 Hnd2 Horig].
  rewrite Hvis in *.
  set (E := List.filter (isEligible s now) (jobStore s)) in *.
  set (L := merge_sort (prioBefore vis) E) in *.
  set (js := take k L). set (rest := drop k L).
  assert (HL : L = js ++ rest) by (symmetry; apply take_drop).
  rewrite HL in Hsort. apply SS_app in Hsort as (Hsjs & _ & Hcross).
  assert (HinL : forall x, In x L <-> In x E).
  { intros x. pose proof (merge_sort_Permutation (prioBefore vis) E) as Hp.
    split; intros H; [apply (Permutation_in _ Hp) | apply (Permutation_in _ (Permutation_sym Hp))];
      exact H. }
  assert (Hjs : forall j, In j js -> In j (jobStore s) /\ isEligible s now j = true).
  { intros j Hj. apply filter_In, HinL. rewrite HL. apply in_or_app; auto. }
  assert (Hjs_fresh : forall j, In j js -> attempts j = 0%nat -> pendingFresh s j).
  { intros j Hj Ha. destruct (Hjs j Hj) as [Hin He]. unfold isEligible in He.
    destruct (active j) eqn:Ej; [discriminate|]. split; [exact Hin|]. split; auto. }
  assert (Hnew : forall y, In y (List.filter (fun j => (attempts j =? 0)%nat) (map markActive js)) ->
                 exists j, y = markActive j /\ In j js /\ pendingFresh s j).
  { intros y Hy. apply filter_In in Hy as [Hy Ha]. apply in_map_iff in Hy as (j & <- & Hj).
    exists j. split; [auto|]. split; [auto|]. apply Hjs_fresh; auto.
    apply Nat.eqb_eq in Ha. exact Ha. }
  constructor.
  - exact Hvis.
  - intros r Hr. apply pendingFresh_startJobs in Hr as [Hr Hnot].
    destruct (Hfresh r Hr) as [Hra Hact]. split; [auto|].
    unfold isActiveIdentity in *. cbn [startJobs activeJobs].
    rewrite existsb_app, Hact, existsb_map_markActive, Hnot. reflexivity.
  - rewrite firstDispatches_startJobs. apply SS_app. split; [auto|]. split.
    + apply SS_filter. apply (SS_map (prioBefore vis)); auto using prioBefore_markActive.
    + intros x y Hx Hy. destruct (Hnew y Hy) as (j & -> & Hj & Hf).
      apply (prioBefore_congr vis x x j); auto. apply (Hbefore x j Hx Hf).
  - intros e r He Hr. apply pendingFresh_startJobs in Hr as [Hr Hnot].
    rewrite existsb_sameIdentity_false in Hnot.
    rewrite firstDispatches_startJobs in He. apply in_app_or in He as [He|He].
    + apply Hbefore; auto.
    + destruct (Hnew e He) as (j & -> & Hj & _).
      assert (HrE : In r rest).
      { destruct (Hfresh r Hr) as [Hra Hact].
        assert (In r (js ++ rest)) as Hin.
        { rewrite <- HL. apply HinL, filter_In. split; [apply Hr|].
          unfold isEligible. destruct Hr as (_ & _ & ->). rewrite Hra, Hact. reflexivity. }
        apply in_app_or in Hin as [Hin|Hin]; auto.
        exfalso. apply (Hnot r Hin). reflexivity. }
      split.
      * apply (prioBefore_congr vis j _ r r); auto.
      * intros Heq. apply (Hnot j Hj). exact Heq.
  - rewrite firstDispatches_startJobs, map_app. apply List.NoDup_app; auto.
    + apply NoDup_map_filter. rewrite map_map. cbn [jobIdentity markActive withRetryState].
      change (List.NoDup (map jobIdentity js)).
      assert (Hnd : List.NoDup (map jobIdentity L)).
      { apply (Permutation_NoDup (l := map jobIdentity E)).
        - apply Permutation_map. symmetry. apply merge_sort_Permutation.
        - apply NoDup_map_filter. auto. }
      rewrite HL, map_app in Hnd. apply List.NoDup_app_remove_r in Hnd. exact Hnd.
    + intros a Ha Hb. apply in_map_iff in Ha as (e & <- & He).
      apply in_map_iff in Hb as (y & Hy & Hyin).
      destruct (Hnew y Hyin) as (j & -> & Hj & Hf).
      apply (proj2 (Hbefore e j He Hf)). symmetry. exact Hy.
  - rewrite store_startJobs_identity. auto.
  - intros x Hx. cbn [startJobs jobStore activeJobs runJobCalls] in Hx.
    rewrite !map_app, !map_map in Hx. cbn [fst] in Hx.
    destruct Hx as [Hx|[Hx|Hx]].
    + apply in_map_iff in Hx as (r0 & <- & Hr0).
      destruct (existsb _ js); apply (originIn_congr jobs r0); auto.
    + apply in_app_or in Hx as [Hx|Hx]; auto.
      apply in_map_iff in Hx as (j & <- & Hj).
      apply (originIn_congr jobs j); auto. apply Horig. left. apply Hjs; auto.
    + apply in_app_or in Hx as [Hx|Hx]; [apply Horig; auto|].
      apply in_map_iff in Hx as (j & <- & Hj).
      apply (originIn_congr jobs j); auto. apply Horig. left. apply Hjs; auto.
Qed.
Lemma pass_QueueInv (vis : list string) (jobs : list AttachmentDownloadJobType)
    (now : Z) (holdOff : bool) (s : Manager) :
  QueueInv vis jobs s -> QueueInv vis jobs (maybeStartJobs P now holdOff s).
Proof.
  intros I. unfold maybeStartJobs. destruct holdOff; [exact I|].
  destruct (_ =? 0)%nat; [exact I|].
  destruct (getNextJobs s now (availableSlots P s)) as [|j js] eqn:Hg; [exact I|].
  rewrite <- Hg. apply startJobs_QueueInv. exact I.
Qed.

(** *** Facts about a completion *)

Lemma In_saveJob (x r : AttachmentDownloadJobType) (rows : list AttachmentDownloadJobType) :
  In r (saveJob x rows) -> r = x \/ In r rows.
Proof.
  unfold saveJob. destruct (existsb _ rows).
  - intros H. apply in_map_iff in H as (r0 & <- & H).
    destruct (sameIdentity _ r0); auto.
  - intros H. apply in_app_or in H as [H|[H|[]]]; auto.
Qed.

Lemma NoDup_saveJob (x : AttachmentDownloadJobType) (rows : list AttachmentDownloadJobType) :
  List.NoDup (map jobIdentity rows) -> List.NoDup (map jobIdentity (saveJob x rows)).
Proof.
  intros H. unfold saveJob. destruct (existsb _ rows) eqn:E.
  - rewrite map_map. erewrite map_ext; [exact H|]. intros r.
    destruct (sameIdentity (jobIdentity x) r) eqn:Es; auto.
    apply sameIdentity_spec in Es. auto.
  - rewrite map_app. apply List.NoDup_app; auto.
    + repeat constructor. intros [].
    + intros a Ha [Hb|[]]. apply in_map_iff in Ha as (r & <- & Hr).
      rewrite existsb_sameIdentity_false in E. apply (E r Hr). auto.
Qed.

Lemma existsb_removeJob_true (id id' : JobIdentity) (l : list AttachmentDownloadJobType) :
  existsb (sameIdentity id') (removeJob id l) = true -> existsb (sameIdentity id') l = true.
Proof.
  intros H. apply existsb_exists in H as (x & Hx & Hs). apply existsb_exists.
  exists x. split; auto. apply removeJob_In in Hx. tauto.
Qed.

Lemma onJobCompleted_shape (id : JobIdentity) (st : JobStatus) (now : Z) (s s' : Manager) :
  onJobCompleted P id st now s = Some s' ->
  exists job,
    In job (activeJobs s) /\
    activeJobs s' = removeJob id (activeJobs s) /\
    runJobCalls s' = runJobCalls s /\
    visibleTimelineMessages s' = visibleTimelineMessages s /\
    (forall r, In r (jobStore s') -> In r (jobStore s) \/
       (attempts r <> 0%nat /\ jobIdentity r = jobIdentity job /\ receivedAt r = receivedAt job)) /\
    (List.NoDup (map jobIdentity (jobStore s)) -> List.NoDup (map jobIdentity (jobStore s'))).
Proof.
  unfold onJobCompleted. destruct (List.find _ _) as [job|] eqn:Hf; [|discriminate].
  intros H. injection H as <-. apply find_some in Hf as [Hin _].
  exists job. cbn [jobStore activeJobs runJobCalls visibleTimelineMessages].
  split; [exact Hin|]. split; [reflexivity|]. split; [reflexivity|].
  split; [reflexivity|]. split.
  - destruct st; [|destruct (_ <=? _)%nat].
    1,2: intros r Hr; left; apply removeJob_In in Hr; tauto.
    intros r Hr. apply In_saveJob in Hr as [->|Hr]; auto.
  - intros Hnd. destruct st; [|destruct (_ <=? _)%nat].
    1,2: apply NoDup_map_filter; auto.
    apply NoDup_saveJob; auto.
Qed.

Lemma completion_QueueInv (vis : list string) (jobs : list AttachmentDownloadJobType)
    (id : JobIdentity) (st : JobStatus) (now : Z) (s s' : Manager) :
  QueueInv vis jobs s -> onJobCompleted P id st now s = Some s' -> QueueInv vis jobs s'.
Proof.
  intros [Hvis Hfresh Hsorted Hbefore Hnd1 Hnd2 Horig] Hc.
  destruct (onJobCompleted_shape id st now s s' Hc)
    as (job & Hjob & Hact & Hcalls & Hvis' & Hrows & Hnd).
  assert (Hpf : forall r, pendingFresh s' r -> pendingFresh s r).
  { intros r (Hr & Ha & Hna). destruct (Hrows r Hr) as [Hr'|(Hne & _)]; [|contradiction].
    split; auto. }
  assert (Hfd : firstDispatches s' = firstDispatches s)
    by (unfold firstDispatches; rewrite Hcalls; reflexivity).
  constructor.
  - congruence.
  - intros r Hr. destruct (Hfresh r (Hpf r Hr)) as [Hra Ha]. split; auto.
    unfold isActiveIdentity in *. rewrite Hact.
    destruct (existsb _ (removeJob id _)) eqn:E; auto.
    apply existsb_removeJob_true in E. congruence.
  - rewrite Hfd. exact Hsorted.
  - intros e r He Hr. rewrite Hfd in He. apply Hbefore; auto.
  - rewrite Hfd. exact Hnd1.
  - apply Hnd. exact Hnd2.
  - intros x [Hx|[Hx|Hx]].
    + destruct (Hrows x Hx) as [Hx'|(_ & Hi & Hr)]; [apply Horig; auto|].
      apply (originIn_congr jobs job); auto.
    + rewrite Hact in Hx. apply removeJob_In in Hx as [Hx _]. apply Horig; auto.
    + rewrite Hcalls in Hx. apply Horig; auto.
Qed.
(** *** The invariant along a run *)

Lemma run_QueueInv (vis : list string) (jobs : list AttachmentDownloadJobType)
    (evs : list Event) :
  forall s s', QueueInv vis jobs s -> forallb schedulingEvent evs = true ->
  run P s evs = Some s' -> QueueInv vis jobs s'.
Proof.
  induction evs as [|e evs IH]; intros s s' I Hevs Hrun.
  - injection Hrun as <-. exact I.
  - simpl in Hevs. apply andb_prop in Hevs as [He Hevs]. simpl in Hrun.
    destruct e as [job u now h|now h|ids now h|id st now]; try discriminate.
    + apply (IH _ _ (pass_QueueInv vis jobs now h s I) Hevs Hrun).
    + simpl in Hrun. destruct (onJobCompleted P id st now s) as [s1|] eqn:Hc; [|discriminate].
      apply (IH s1); auto. apply (completion_QueueInv vis jobs id st now s); auto.
Qed.

Lemma addJobs_facts (all : list AttachmentDownloadJobType) (jobs : list AttachmentDownloadJobType) :
  forall s, (forall j, In j jobs -> In j all) ->
  activeJobs s = [] -> runJobCalls s = [] ->
  (forall r, In r (jobStore s) -> freshRow all r) ->
  List.NoDup (map jobIdentity (jobStore s)) ->
  let s' := addJobs P jobs s in
  activeJobs s' = [] /\ runJobCalls s' = [] /\
  visibleTimelineMessages s' = visibleTimelineMessages s /\
  (forall r, In r (jobStore s') -> freshRow all r) /\
  List.NoDup (map jobIdentity (jobStore s')).
Proof.
  induction jobs as [|j jobs IH]; intros s Hall Ha Hc Hr Hnd; [simpl; auto|].
  cbv zeta. change (addJobs P (j :: jobs) s) with (addJobs P jobs (addJob P j STANDARD 0 false s)).
  destruct (IH (addJob P j STANDARD 0 false s)) as (H1 & H2 & H3 & H4 & H5); auto.
  - intros x Hx. apply Hall. right. exact Hx.
  - intros r Hin. cbn [addJob setJobStore jobStore] in Hin.
    apply In_saveJob in Hin as [->|Hin]; auto.
    repeat split. exists j. split; [apply Hall; left; reflexivity|]. split; reflexivity.
  - apply NoDup_saveJob. exact Hnd.
Qed.
(** The queue right after [jobs] are added to an empty manager, with the
    visible set [vis] installed. *)
Lemma QueueInv_added (vis : list string) (jobs : list AttachmentDownloadJobType) :
  let s := addJobs P jobs emptyManager in
  QueueInv vis jobs
    {| jobStore := jobStore s; activeJobs := activeJobs s; visibleTimelineMessages := vis;
       runJobCalls := runJobCalls s; completedAttempts := completedAttempts s |}.
Proof.
  cbv zeta.
  destruct (addJobs_facts jobs jobs emptyManager (fun j H => H) eq_refl eq_refl
              (fun r H => match H with end) (List.NoDup_nil _))
    as (Ha & Hc & _ & Hr & Hnd).
  unfold firstDispatches.
  constructor; cbn [jobStore activeJobs visibleTimelineMessages runJobCalls]; rewrite ?Hc.
  - reflexivity.
  - intros r (Hin & _). destruct (Hr r Hin) as (_ & _ & Hra & _). split; auto.
    unfold isActiveIdentity. cbn [activeJobs]. rewrite Ha. reflexivity.
  - constructor.
  - intros e r [].
  - constructor.
  - exact Hnd.
  - intros x [Hx|[Hx|Hx]]; [apply Hr; auto| |].
    + rewrite Ha in Hx. destruct Hx.
    + destruct Hx.
Qed.

(** The concurrency cap holds along every run. *)
Lemma step_active_bound (s s' : Manager) (e : Event) :
  (length (activeJobs s) <= maxConcurrentJobs P)%nat -> step P s e = Some s' ->
  (length (activeJobs s') <= maxConcurrentJobs P)%nat.
Proof.
  assert (Hpass : forall now h s0, (length (activeJobs s0) <= maxConcurrentJobs P)%nat ->
            (length (activeJobs (maybeStartJobs P now h s0)) <= maxConcurrentJobs P)%nat).
  { intros now h s0 H0. unfold maybeStartJobs, availableSlots.
    destruct h; auto. destruct (_ =? 0)%nat; auto.
    destruct (getNextJobs _ _ _) as [|j js] eqn:Hg; auto.
    cbn [startJobs activeJobs]. rewrite length_app, length_map, <- Hg.
    unfold getNextJobs. rewrite length_take. lia. }
  intros H Hs. destruct e as [job u now h|now h|ids now h|id st now]; simpl in Hs.
  - injection Hs as <-. unfold addJob. destruct u; [exact H|].
    destruct h; [exact H|]. unfold availableSlots.
    destruct (_ =? 0)%nat eqn:Ez; [exact H|]. destruct (isEligible _ _ _); [|exact H].
    cbn [startJobs activeJobs setJobStore]. rewrite length_app. simpl.
    apply Nat.eqb_neq in Ez. cbn [activeJobs setJobStore] in Ez. lia.
  - injection Hs as <-. auto.
  - injection Hs as <-. apply Hpass. exact H.
  - destruct (onJobCompleted_shape id st now s s' Hs) as (_ & _ & Hact & _).
    rewrite Hact. unfold removeJob. etransitivity; [|exact H].
    clear. induction (activeJobs s) as [|a l IH]; simpl; [lia|].
    destruct (negb _); simpl; lia.
Qed.

Lemma run_active_bound (evs : list Event) :
  forall s s', (length (activeJobs s) <= maxConcurrentJobs P)%nat -> run P s evs = Some s' ->
  (length (activeJobs s') <= maxConcurrentJobs P)%nat.
Proof.
  induction evs as [|e evs IH]; intros s s' H Hrun; simpl in Hrun.
  - injection Hrun as <-. exact H.
  - destruct (step P s e) as [s1|] eqn:Hs; [|discriminate].
    apply (IH s1); auto. apply (step_active_bound s s1 e); auto.
Qed.
(** *** Dispatch order *)

Lemma NoDup_map_inj {A B} (f : A -> B) (l : list A) (a b : A) :
  List.NoDup (map f l) -> In a l -> In b l -> f a = f b -> a = b.
Proof.
  induction l as [|x l IH]; simpl; [tauto|]. intros Hnd Ha Hb Hf.
  inversion Hnd as [|y m Hn Hd]; subst.
  destruct Ha as [<-|Ha], Hb as [<-|Hb]; auto.
  - exfalso. apply Hn. rewrite Hf. apply in_map. exact Hb.
  - exfalso. apply Hn. rewrite <- Hf. apply in_map. exact Ha.
Qed.

Lemma isVisible_nil (x : AttachmentDownloadJobType) : isVisible [] x = false.
Proof. unfold isVisible. apply bool_decide_false. intros H. inversion H. Qed.

Lemma prioBefore_nil (a b : AttachmentDownloadJobType) :
  prioBefore [] a b -> receivedAt b <= receivedAt a.
Proof. unfold prioBefore. rewrite !isVisible_nil. naive_solver. Qed.

(** Two jobs of different identities traced back to jobs with distinct
    [receivedAt] have distinct [receivedAt]. *)
Lemma receivedAt_distinct (jobs : list AttachmentDownloadJobType) (a b : AttachmentDownloadJobType) :
  List.NoDup (map receivedAt jobs) -> originIn jobs a -> originIn jobs b ->
  jobIdentity a <> jobIdentity b -> receivedAt a <> receivedAt b.
Proof.
  intros Hnd (ja & Hja & Hia & Hra) (jb & Hjb & Hib & Hrb) Hne Heq.
  assert (ja = jb) as <- by (apply (NoDup_map_inj receivedAt jobs); auto; congruence).
  congruence.
Qed.

Lemma sorted_nil_strict (jobs : list AttachmentDownloadJobType) (l : list AttachmentDownloadJobType) :
  List.NoDup (map receivedAt jobs) ->
  StronglySorted (prioBefore []) l -> List.NoDup (map jobIdentity l) ->
  (forall x, In x l -> originIn jobs x) ->
  StronglySorted (fun a b => receivedAt b < receivedAt a) l.
Proof.
  intros Hd Hs. induction Hs as [|x l Hs IH Hall]; intros Hnd Ho; constructor.
  - inversion Hnd; subst. apply IH; auto. intros y Hy. apply Ho. right. exact Hy.
  - apply List.Forall_forall. intros y Hy. rewrite List.Forall_forall in Hall.
    pose proof (prioBefore_nil x y (Hall y Hy)).
    assert (receivedAt x <> receivedAt y); [|lia].
    apply (receivedAt_distinct jobs); auto; [apply Ho; left; auto|apply Ho; right; auto|].
    inversion Hnd as [|i m Hn _]; subst. intros Heq. apply Hn. rewrite Heq. apply in_map. exact Hy.
Qed.

Lemma QueueInv_start (jobs : list AttachmentDownloadJobType) :
  QueueInv [] jobs (addJobs P jobs emptyManager).
Proof.
  pose proof (QueueInv_added [] jobs) as I. cbv zeta in I.
  destruct (addJobs_facts jobs jobs emptyManager (fun j H => H) eq_refl eq_refl
              (fun r H => match H with end) (List.NoDup_nil _)) as (_ & _ & Hv & _).
  destruct (addJobs P jobs emptyManager) as [a b c d e]. simpl in *. subst c. exact I.
Qed.
Lemma getNextJobs_In (s : Manager) (now : Z) (k : nat) (j : AttachmentDownloadJobType) :
  In j (getNextJobs s now k) -> In j (jobStore s).
Proof.
  unfold getNextJobs. intros Hj.
  assert (Hin : In j (merge_sort (prioBefore (visibleTimelineMessages s))
                       (List.filter (isEligible s now) (jobStore s)))).
  { rewrite <- (take_drop k (merge_sort _ _)). apply in_or_app. left. exact Hj. }
  apply (Permutation_in _ (merge_sort_Permutation _ _)) in Hin.
  apply filter_In in Hin. tauto.
Qed.

Lemma run_first_attempts_only (evs : list Event) :
  forall s s',
  (forall r, In r (jobStore s) -> attempts r = 0%nat) ->
  (forall c, In c (runJobCalls s) -> attempts (fst c) = 0%nat) ->
  forallb schedulingEvent evs = true -> forallb finishedOnly evs = true ->
  run P s evs = Some s' ->
  forall c, In c (runJobCalls s') -> attempts (fst c) = 0%nat.
Proof.
  induction evs as [|e evs IH]; intros s s' Hst Hc Hev Hfin Hrun; simpl in Hrun.
  - injection Hrun as <-. exact Hc.
  - simpl in Hev, Hfin. apply andb_prop in Hev as [He Hev]. apply andb_prop in Hfin as [Hf Hfin].
    destruct e as [job u now h|now h|ids now h|id st now]; try discriminate.
    + apply (IH (maybeStartJobs P now h s)); auto; unfold maybeStartJobs;
        destruct h; auto; destruct (_ =? 0)%nat; auto;
        destruct (getNextJobs s now _) as [|j js] eqn:Hg; auto;
        rewrite <- Hg; cbn [startJobs jobStore runJobCalls].
      * intros r Hr. apply in_map_iff in Hr as (r0 & <- & Hr0).
        destruct (existsb _ _); exact (Hst r0 Hr0).
      * intros c Hcin. apply in_app_or in Hcin as [Hcin|Hcin]; auto.
        rewrite map_map in Hcin. apply in_map_iff in Hcin as (j0 & <- & Hj0).
        exact (Hst j0 (getNextJobs_In s now _ j0 Hj0)).
    + destruct st; [|discriminate].
      simpl in Hrun. unfold onJobCompleted in Hrun.
      destruct (List.find _ _) as [job|]; [|discriminate].
      match type of Hrun with run P ?s1 evs = Some s' =>
        refine (IH s1 s' _ Hc Hev Hfin Hrun) end.
      intros r Hr. apply removeJob_In in Hr. apply Hst. tauto.
Qed.

Lemma filter_all_true {A} (p : A -> bool) (l : list A) :
  (forall x, In x l -> p x = true) -> List.filter p l = l.
Proof.
  induction l as [|a l IH]; simpl; intros H; auto.
  rewrite (H a (or_introl eq_refl)). f_equal. apply IH. auto.
Qed.
Lemma prioBefore_visible_first (V : list string) (a b : AttachmentDownloadJobType) :
  prioBefore V a b ->
  (isVisible V b = true -> isVisible V a = true) /\
  (isVisible V a = false -> receivedAt b <= receivedAt a).
Proof.
  unfold prioBefore. destruct (isVisible V a), (isVisible V b); naive_solver.
Qed.

(** C2: after [jobs] with pairwise distinct [receivedAt] are added and
    with no visible message, whatever ticks (held or not) and completions
    follow: the jobs reach the runner for their first attempt in strictly
    descending [receivedAt] order, each of them before every fresh job
    still waiting, which has a smaller [receivedAt]; when every completion
    is a success these first attempts are all the runner calls; and at most
    [maxConcurrentJobs] jobs are active. *)
Theorem dispatch_descending_receivedAt (jobs : list AttachmentDownloadJobType)
    (evs : list Event) (s : Manager)
    (Hdistinct : List.NoDup (map receivedAt jobs))
    (Hevs : forallb schedulingEvent evs = true)
    (Hrun : run P (addJobs P jobs emptyManager) evs = Some s) :
  StronglySorted (fun a b => receivedAt b < receivedAt a) (firstDispatches s) /\
  (forall e r, In e (firstDispatches s) -> pendingFresh s r -> receivedAt r < receivedAt e) /\
  (forallb finishedOnly evs = true -> map fst (runJobCalls s) = firstDispatches s) /\
  (length (activeJobs s) <= maxConcurrentJobs P)%nat.
Proof.
  destruct (addJobs_facts jobs jobs emptyManager (fun j H => H) eq_refl eq_refl
              (fun r H => match H with end) (List.NoDup_nil _)) as (Ha0 & Hc0 & _ & Hr0 & _).
  destruct (run_QueueInv [] jobs evs _ _ (QueueInv_start jobs) Hevs Hrun)
    as [Hvis Hfresh Hsorted Hbefore Hnd1 Hnd2 Horig].
  assert (HoFD : forall x, In x (firstDispatches s) -> originIn jobs x).
  { intros x Hx. apply Horig. right. right.
    unfold firstDispatches in Hx. apply filter_In in Hx. tauto. }
  split; [|split; [|split]].
  - apply (sorted_nil_strict jobs); auto.
  - intros e r He Hr. destruct (Hbefore e r He Hr) as [Hp Hne].
    pose proof (prioBefore_nil _ _ Hp).
    assert (receivedAt e <> receivedAt r); [|lia].
    apply (receivedAt_distinct jobs); auto. apply Horig. left. apply Hr.
  - intros Hfin. unfold firstDispatches. symmetry. apply filter_all_true.
    intros x Hx. apply Nat.eqb_eq. apply in_map_iff in Hx as (c & <- & Hc).
    apply (run_first_attempts_only evs (addJobs P jobs emptyManager) s); auto.
    + intros r Hr. apply Hr0. exact Hr.
    + rewrite Hc0. intros c' [].
  - apply (run_active_bound evs (addJobs P jobs emptyManager) s); auto.
    rewrite Ha0. simpl. lia.
Qed.

(** C3 (amended): after [jobs] are added and the visible set [V] is
    installed by [updateVisibleTimelineMessages], whatever ticks and
    completions follow, in the order in which jobs reach the runner for
    their first attempt no job of a message outside [V] comes before a job
    of a message in [V], and the jobs outside [V] come by descending
    [receivedAt]; each dispatched job stands in the same relation to every
    fresh job still waiting.  The order among visible jobs is left open. *)
Theorem visible_jobs_dispatched_first (jobs : list AttachmentDownloadJobType) (V : list string)
    (now : Z) (h : bool) (evs : list Event) (s : Manager)
    (Hevs : forallb schedulingEvent evs = true)
    (Hrun : run P (addJobs P jobs emptyManager) (EvUpdateVisible V now h :: evs) = Some s) :
  let before a b :=
    (isVisible V b = true -> isVisible V a = true) /\
    (isVisible V a = false -> receivedAt b <= receivedAt a) in
  StronglySorted before (firstDispatches s) /\
  (forall e r, In e (firstDispatches s) -> pendingFresh s r -> before e r).
Proof.
  intros before. simpl in Hrun.
  pose proof (pass_QueueInv V jobs now h _ (QueueInv_added V jobs)) as I0.
  destruct (run_QueueInv V jobs evs _ _ I0 Hevs Hrun)
    as [Hvis Hfresh Hsorted Hbefore Hnd1 Hnd2 Horig].
  split.
  - rewrite <- (map_id (firstDispatches s)).
    apply (SS_map (prioBefore V)); auto. apply prioBefore_visible_first.
  - intros e r He Hr. apply prioBefore_visible_first. apply Hbefore; auto.
Qed.
End Manager.

(** ** Witnesses and counterexamples for the manager claims *)


Lemma drop_after_max_attempts_resolves_witness :
  exists s',
    onJobCompleted testParams (jobIdentity (composeJob "message-0" 0)) Retry 900 lastAttemptState
      = Some s' /\
    In (jobIdentity (composeJob "message-0" 0), 4%nat) (completedAttempts s').
Proof.
  destruct (drop_after_max_attempts_resolves testParams (jobIdentity (composeJob "message-0" 0))
              900 lastAttemptState lastAttemptJob ltac:(vm_compute; reflexivity)
              ltac:(vm_compute; lia)) as (s' & H1 & _ & H3 & _).
  exists s'. split; [exact H1|]. exact H3.
Defined.


(** C9: adding the urgent job of the test with IMMEDIATE is not a STANDARD
    add followed by one scheduling pass: the pass would start message-2,
    message-1 and message-0, the IMMEDIATE add starts the urgent job alone. *)
Lemma immediate_counterexample :
  let s := drive testParams (fun _ => Finished) 1 0 (addJobs testParams (jobsN 6) emptyManager) in
  callLog (addJob testParams urgentJob IMMEDIATE 1 false s)
  <> callLog (maybeStartJobs testParams 1 false (addJob testParams urgentJob STANDARD 1 false s)).
Proof. vm_compute. discriminate. Qed.

Lemma readd_resets_attempts_witness :
  let s' := addJob testParams (composeJob "message-0" 0) STANDARD 1 false retriedOnce in
  isEligible s' 1 (newJobRow (composeJob "message-0" 0)) = true /\
  retryAfter retriedOnceRow = Some 60 /\ attempts retriedOnceRow = 1%nat.
Proof.
  destruct (readd_resets_attempts testParams retriedOnce (composeJob "message-0" 0) retriedOnceRow
              1 1 2 60 false ltac:(vm_compute; auto) ltac:(vm_compute; reflexivity)
              ltac:(vm_compute; lia) ltac:(vm_compute; reflexivity)
              ltac:(vm_compute; reflexivity)) as (_ & _ & _ & H4 & _).
  split; [exact H4|]. split; vm_compute; reflexivity.
Defined.

(** C2 and C3 on the fixtures of the tests. *)
Lemma dispatch_descending_receivedAt_witness :
  let s := maybeStartJobs testParams 0 false (addJobs testParams (jobsN 5) emptyManager) in
  StronglySorted (fun a b => receivedAt b < receivedAt a) (firstDispatches s) /\
  map messageId (firstDispatches s) = ["message-4"; "message-3"; "message-2"].
Proof.
  intros s. split.
  - apply (dispatch_descending_receivedAt testParams (jobsN 5) [EvTick 0 false] s).
    + vm_compute. repeat constructor; simpl; lia.
    + reflexivity.
    + reflexivity.
  - vm_compute. reflexivity.
Defined.

(** C3: both visible, message-0 ([receivedAt] 0) is dispatched before
    message-1 ([receivedAt] 1), as the test "prefers jobs for visible
    messages" expects (lines 246-256). *)
Lemma visible_order_counterexample :
  let s := maybeStartJobs testParams 0 false
             (updateVisibleTimelineMessages testParams ["message-0"; "message-1"] 0 true
                (addJobs testParams (jobsN 5) emptyManager)) in
  map (fun j => (messageId j, receivedAt j)) (firstDispatches s)
  = [("message-0", 0); ("message-1", 1); ("message-4", 4)].
Proof. vm_compute. reflexivity. Qed.

Lemma visible_jobs_dispatched_first_witness :
  let s := maybeStartJobs testParams 0 false
             (updateVisibleTimelineMessages testParams ["message-0"; "message-1"] 0 true
                (addJobs testParams (jobsN 5) emptyManager)) in
  StronglySorted
    (fun a b => (isVisible ["message-0"; "message-1"] b = true ->
                 isVisible ["message-0"; "message-1"] a = true) /\
                (isVisible ["message-0"; "message-1"] a = false -> receivedAt b <= receivedAt a))
    (firstDispatches s).
Proof.
  intros s.
  apply (visible_jobs_dispatched_first testParams (jobsN 5) ["message-0"; "message-1"] 0 true
           [EvTick 0 false] s).
  - reflexivity.
  - reflexivity.
Defined.

(** ** Further properties: the helpers of the tests *)

Lemma append_cons (c : Ascii.ascii) (a b : string) : String c a +:+ b = String c (a +:+ b).
Proof. reflexivity. Qed.

Lemma append_nil_l (b : string) : "" +:+ b = b.
Proof. reflexivity. Qed.

Lemma string_length_append (a b : string) :
  String.length (a +:+ b) = (String.length a + String.length b)%nat.
Proof. induction a as [|c a IH]; [reflexivity|]. rewrite append_cons. simpl. lia. Qed.

Lemma append_assoc_str (a b c : string) : a +:+ (b +:+ c) = (a +:+ b) +:+ c.
Proof. induction a as [|x a IH]; [reflexivity|]. rewrite !append_cons, IH. reflexivity. Qed.

Lemma append_cancel_len (a1 a2 b1 b2 : string) :
  String.length a1 = String.length a2 -> a1 +:+ b1 = a2 +:+ b2 -> a1 = a2 /\ b1 = b2.
Proof.
  revert a2. induction a1 as [|c a1 IH]; intros [|c2 a2] Hl He; simpl in Hl; try discriminate.
  - auto.
  - rewrite !append_cons in He. injection He as -> He.
    destruct (IH a2 ltac:(lia) He) as [-> ->]. auto.
Qed.

Lemma composedShape_callKey (x : AttachmentDownloadJobType) :
  composedShape x = true ->
  callKey x = messageId x +:+ "attachment" +:+ "." +:+ "digestFor" +:+ messageId x.
Proof.
  unfold composedShape, callKey. intros H. apply andb_prop in H as [H1 H2].
  apply bool_decide_eq_true in H1, H2. rewrite H1, H2. reflexivity.
Qed.

Lemma callKey_composed_inj (x y : AttachmentDownloadJobType) :
  composedShape x = true -> composedShape y = true ->
  callKey x = callKey y <-> messageId x = messageId y.
Proof.
  intros Hx Hy. rewrite (composedShape_callKey x Hx), (composedShape_callKey y Hy).
  split; [|intros ->; reflexivity].
  intros He. pose proof (f_equal String.length He) as Hl.
  rewrite !string_length_append in Hl. simpl in Hl.
  exact (proj1 (append_cancel_len (messageId x) (messageId y) _ _ ltac:(lia) He)).
Qed.

Lemma map_callKey_composed (l1 l2 : list AttachmentDownloadJobType) :
  forallb composedShape l1 = true -> forallb composedShape l2 = true ->
  map callKey l1 = map callKey l2 <-> map messageId l1 = map messageId l2.
Proof.
  revert l2. induction l1 as [|x l1 IH]; intros [|y l2] H1 H2; simpl in *;
    try (split; intros; discriminate || reflexivity).
  apply andb_prop in H1 as [Hx H1]. apply andb_prop in H2 as [Hy H2].
  split; intros H; injection H as E1 E2; f_equal.
  - apply (callKey_composed_inj x y Hx Hy). exact E1.
  - apply (IH l2); auto.
  - apply (callKey_composed_inj x y Hx Hy). exact E1.
  - apply (IH l2); auto.
Qed.

Lemma jobsN_S (n : nat) :
  jobsN (S n) = jobsN n ++ [composeJob ("message-" +:+ pretty n) (Z.of_nat n)].
Proof. unfold jobsN. rewrite seq_S, map_app. reflexivity. Qed.

Lemma jobsN_In (n : nat) (j : AttachmentDownloadJobType) :
  In j (jobsN n) <-> exists i, (i < n)%nat /\ j = composeJob ("message-" +:+ pretty i) (Z.of_nat i).
Proof.
  unfold jobsN. rewrite in_map_iff. split.
  - intros (i & <- & Hi). apply in_seq in Hi. exists i. split; [lia|reflexivity].
  - intros (i & Hi & ->). exists i. split; [reflexivity|]. apply in_seq. lia.
Qed.

Lemma message_name_inj (i j : nat) : "message-" +:+ pretty i = "message-" +:+ pretty j -> i = j.
Proof. intros H. apply (inj pretty). apply (inj (String.app "message-")). exact H. Qed.

Lemma addJobs_app (P : ManagerParams) (l1 l2 : list AttachmentDownloadJobType) (s : Manager) :
  addJobs P (l1 ++ l2) s = addJobs P l2 (addJobs P l1 s).
Proof. unfold addJobs. apply foldl_app. Qed.

Lemma addJobs_jobsN (P : ManagerParams) (n : nat) :
  let s := addJobs P (jobsN n) emptyManager in
  jobStore s = jobsN n /\ activeJobs s = [] /\ runJobCalls s = [] /\
  visibleTimelineMessages s = [] /\ completedAttempts s = [].
Proof.
  induction n as [|n IH]; [repeat split|].
  cbv zeta in *. rewrite jobsN_S, addJobs_app.
  destruct IH as (H1 & H2 & H3 & H4 & H5).
  set (s := addJobs P (jobsN n) emptyManager) in *.
  cbn [addJobs foldl addJob setJobStore jobStore activeJobs runJobCalls
       visibleTimelineMessages completedAttempts].
  rewrite H1, H2, H3, H4, H5. repeat split.
  unfold saveJob.
  replace (existsb _ (jobsN n)) with false; [reflexivity|].
  symmetry. apply existsb_sameIdentity_false. intros r Hr Hid.
  apply jobsN_In in Hr as (i & Hi & ->).
  apply (f_equal (fun p : JobIdentity => fst (fst p))) in Hid.
  apply message_name_inj in Hid. lia.
Qed.

(** The jobs [addJobs(num)] composes have pairwise distinct identities and
    distinct [receivedAt], the index of each. *)
Lemma jobsN_receivedAt (n : nat) : map receivedAt (jobsN n) = map Z.of_nat (seq 0 n).
Proof. unfold jobsN. rewrite map_map. reflexivity. Qed.

Lemma jobsN_NoDup_identity (n : nat) : List.NoDup (map jobIdentity (jobsN n)).
Proof.
  unfold jobsN. rewrite map_map. apply Finite.Injective_map_NoDup; [|apply seq_NoDup].
  intros i j H. apply (f_equal (fun p : JobIdentity => fst (fst p))) in H.
  apply message_name_inj. exact H.
Qed.

Lemma jobsN_receivedAt_inj (n : nat) (a b : AttachmentDownloadJobType) :
  In a (jobsN n) -> In b (jobsN n) -> receivedAt a = receivedAt b -> a = b.
Proof.
  intros Ha Hb Hr. apply jobsN_In in Ha as (i & _ & ->). apply jobsN_In in Hb as (j & _ & ->).
  simpl in Hr. assert (i = j) as -> by lia. reflexivity.
Qed.

Lemma rev_jobsN_sorted (n : nat) :
  StronglySorted (fun a b => receivedAt b <= receivedAt a) (rev (jobsN n)).
Proof.
  induction n as [|n IH]; [constructor|].
  rewrite jobsN_S, rev_app_distr. simpl. constructor; [exact IH|].
  apply List.Forall_forall. intros y Hy. apply in_rev in Hy.
  apply jobsN_In in Hy as (i & Hi & ->). simpl. lia.
Qed.

Section Extras.
Variable P : ManagerParams.

(** X2: [addJobs(num)] on an empty manager stores exactly the [num]
    composed jobs, oldest first; their identities are pairwise distinct and
    the [receivedAt] of each is its index; no job is active or started. *)
Theorem addJobs_stores_composed_jobs (n : nat) :
  let s := addJobs P (jobsN n) emptyManager in
  jobStore s = jobsN n /\
  List.NoDup (map jobIdentity (jobStore s)) /\
  map receivedAt (jobStore s) = map Z.of_nat (seq 0 n) /\
  activeJobs s = [] /\ runJobCalls s = [].
Proof.
  destruct (addJobs_jobsN P n) as (H1 & H2 & H3 & _). cbv zeta.
  rewrite H1. split; [reflexivity|]. split; [apply jobsN_NoDup_identity|].
  split; [apply jobsN_receivedAt|]. auto.
Qed.

(** X3: the store query on the jobs of [addJobs(num)], with no visible
    message, returns them newest first, up to the limit. *)
Theorem addJobs_query_newest_first (n : nat) (now : Z) (limit : nat) :
  getNextJobs (addJobs P (jobsN n) emptyManager) now limit = take limit (rev (jobsN n)).
Proof.
  destruct (addJobs_jobsN P n) as (H1 & H2 & _ & H4 & _).
  set (s := addJobs P (jobsN n) emptyManager) in *.
  pose proof (getNextJobs_sorted s now limit) as Hs.
  unfold getNextJobs. rewrite H4 in *. rewrite H1 in *.
  assert (Hf : List.filter (isEligible s now) (jobsN n) = jobsN n).
  { apply filter_all_true. intros j Hj. apply jobsN_In in Hj as (i & _ & ->).
    unfold isEligible, isActiveIdentity. rewrite H2. reflexivity. }
  rewrite Hf in *. f_equal.
  apply (StronglySorted_unique_strong (prioBefore [])).
  - intros x1 x2 Hx1 Hx2 H12 H21. apply list_elem_of_In in Hx1, Hx2.
    apply (Permutation_in _ (merge_sort_Permutation (prioBefore []) (jobsN n))) in Hx1.
    apply in_rev in Hx2.
    apply prioBefore_nil in H12, H21.
    apply (jobsN_receivedAt_inj n); auto. lia.
  - exact Hs.
  - assert (Himp : forall a b, receivedAt b <= receivedAt a -> prioBefore [] a b).
    { intros a b Hab. unfold prioBefore. rewrite !isVisible_nil. right. right. auto. }
    pose proof (SS_map _ (prioBefore []) (fun x => x) _ Himp (rev_jobsN_sorted n)) as H.
    rewrite map_id in H. exact H.
  - rewrite merge_sort_Permutation. apply Permutation_rev.
Qed.

(** X4: on runner calls and expected jobs shaped by [composeJob],
    [assertRunJobCalledWith] passes exactly when the calls' message ids
    are the expected ones, in order. *)
Theorem assertRunJobCalledWith_composed (s : Manager) (jobs : list AttachmentDownloadJobType)
    (Hcalls : forallb composedShape (map fst (runJobCalls s)) = true)
    (Hjobs : forallb composedShape jobs = true) :
  assertRunJobCalledWith s jobs = true
  <-> map (fun call => messageId (fst call)) (runJobCalls s) = map messageId jobs.
Proof.
  unfold assertRunJobCalledWith. rewrite bool_decide_eq_true.
  rewrite <- (map_map fst callKey), <- (map_map fst messageId).
  apply map_callKey_composed; auto.
Qed.

(** X5: [assertRunJobCalledWith] puts no separator between [messageId]
    and [attachmentType]: expected jobs whose two fields concatenate to the
    same string, with the same digest, pass or fail together. *)
Theorem callKey_boundary_collision (s : Manager) (jobs jobs' : list AttachmentDownloadJobType)
    (Hsame : Forall2 (fun x y => messageId x +:+ attachmentType x = messageId y +:+ attachmentType y
                                 /\ digest x = digest y) jobs jobs') :
  assertRunJobCalledWith s jobs = assertRunJobCalledWith s jobs'.
Proof.
  unfold assertRunJobCalledWith. f_equal.
  assert (E : map callKey jobs = map callKey jobs').
  { induction Hsame as [|x y l l' [Hxy Hd] _ IH]; [reflexivity|].
    simpl. rewrite IH. f_equal. unfold callKey.
    rewrite !(append_assoc_str (messageId _)), Hxy, Hd. reflexivity. }
  rewrite E. reflexivity.
Qed.

Lemma advanceLoop_ticks (interval : Z) (Hi : 0 < interval) (k : nat) :
  forall clock target,
  (match k with
   | O => target <= clock
   | S _ => (Z.of_nat k - 1) * interval < target - clock <= Z.of_nat k * interval
   end) ->
  forall fuel, (k < fuel)%nat ->
  advanceLoop fuel interval clock target
  = Some (map (fun i => clock + interval * Z.of_nat i) (seq 1 k)).
Proof.
  induction k as [|k IH]; intros clock target Hk [|fuel] Hf; try lia.
  - simpl. replace (clock <? target) with false by (symmetry; apply Z.ltb_ge; lia).
    reflexivity.
  - simpl. replace (clock <? target) with true by (symmetry; apply Z.ltb_lt; nia).
    rewrite (IH (clock + interval) target).
    + simpl. f_equal. f_equal; [lia|].
      rewrite <- (seq_shift k 1), map_map. apply map_ext. intros i. lia.
    + destruct k; nia.
    + lia.
Qed.

Lemma advanceLoop_stalls (interval target : Z) (Hi : interval <= 0) :
  forall fuel clock, clock < target -> advanceLoop fuel interval clock target = None.
Proof.
  induction fuel as [|fuel IH]; intros clock Hc; [reflexivity|].
  simpl. replace (clock <? target) with true by (symmetry; apply Z.ltb_lt; lia).
  rewrite IH by lia. reflexivity.
Qed.

(** X6: [advanceTime(ms)] ticks the clock [ceil(ms / interval)] times, no
    tick for [ms <= 0]; the clock ends at the first multiple of the
    interval at or past [ms], and before [ms] plus one interval. *)
Theorem advanceTime_ticks (fuel : nat) (tickInterval : option Z) (now ms : Z)
    (Hi : 0 < tickIntervalOr tickInterval)
    (Hfuel : (Z.to_nat ((ms + tickIntervalOr tickInterval - 1) / tickIntervalOr tickInterval)
              < fuel)%nat) :
  let ti := tickIntervalOr tickInterval in
  let k := Z.to_nat ((ms + ti - 1) / ti) in
  advanceTime fuel tickInterval now ms = Some (map (fun i => now + ti * Z.of_nat i) (seq 1 k)) /\
  (0 < ms -> ms <= Z.of_nat k * ti < ms + ti).
Proof.
  cbv zeta. set (ti := tickIntervalOr tickInterval) in *.
  set (q := (ms + ti - 1) / ti) in *.
  pose proof (Z.div_mod (ms + ti - 1) ti ltac:(lia)) as Hd.
  pose proof (Z.mod_pos_bound (ms + ti - 1) ti Hi) as Hm.
  fold q in Hd. set (r := (ms + ti - 1) mod ti) in *.
  unfold advanceTime. fold ti.
  destruct (Z_le_gt_dec ms 0) as [Hms|Hms].
  - assert (Hq : q <= 0) by nia.
    replace (Z.to_nat q) with 0%nat in * by lia.
    split; [|lia].
    apply (advanceLoop_ticks ti Hi 0); [lia|lia].
  - assert (Hq : 1 <= q) by nia.
    split.
    + apply (advanceLoop_ticks ti Hi (Z.to_nat q)); [|lia].
      destruct (Z.to_nat q) as [|k] eqn:Ek; [lia|].
      rewrite <- Ek, Z2Nat.id by lia. nia.
    + intros _. rewrite Z2Nat.id by lia. nia.
Qed.

(** X7: with a tick interval of zero ([??] keeps a 0 interval), the clock
    never moves and [advanceTime] of a positive duration never leaves its
    loop. *)
Theorem advanceTime_stalls (fuel : nat) (tickInterval : option Z) (now ms : Z)
    (Hi : tickIntervalOr tickInterval = 0) (Hms : 0 < ms) :
  advanceTime fuel tickInterval now ms = None.
Proof. unfold advanceTime. apply advanceLoop_stalls; lia. Qed.

Lemma complete_single_retry_keys (now : Z) (s : Manager) (r : AttachmentDownloadJobType) :
  jobStore s = [r] -> activeJobs s = [] ->
  completedAttempts (completeAll P (fun _ => Retry) now [markActive r] (startJobs now [r] s))
  = completedAttempts s ++ [(jobIdentity r, attempts r)].
Proof.
  intros Hst Hact.
  unfold completeAll, onJobCompleted, startJobs, removeJob, saveJob.
  rewrite Hst, Hact. simpl.
  unfold sameIdentity, jobIdentity, markActive, withRetryState. simpl.
  rewrite !bool_decide_true by reflexivity. simpl.
  repeat match goal with |- context [(?a <=? ?b)%nat] => destruct (a <=? b)%nat end;
    reflexivity.
Qed.

Lemma retry_single_run_keys (n : nat) :
  forall k t r s, (1 <= maxConcurrentJobs P)%nat ->
  (k + n = maxAttempts (retryConfig P))%nat -> (1 <= n)%nat ->
  jobStore s = [r] -> activeJobs s = [] -> active r = false -> attempts r = k ->
  retryAfterElapsed t (retryAfter r) = true ->
  exists F, forall f, (F <= f)%nat ->
    let s' := drive P (fun _ => Retry) f t s in
    map startedKey (runJobCalls s')
      = map startedKey (runJobCalls s) ++ map (fun i => (jobIdentity r, i)) (seq k n) /\
    completedAttempts s' = completedAttempts s ++ map (fun i => (jobIdentity r, i)) (seq k n).
Proof.
  induction n as [|n IH]; intros k t r s Hcap Hk Hn Hst Hact Hr Hatt Hra; [lia|].
  destruct (complete_single_retry P t s r Hst Hact) as (Ha2 & Hc2 & Hs2).
  pose proof (complete_single_retry_keys t s r Hst Hact) as Hk2.
  set (s2 := completeAll P (fun _ => Retry) t [markActive r] (startJobs t [r] s)) in *.
  assert (Hd : forall f, drive P (fun _ => Retry) (S f) t s
                         = drive P (fun _ => Retry) f (t + 1) s2).
  { intros f. rewrite drive_step, (pass_single_ready P t s r); auto.
    assert (Hcalls : runJobCalls (startJobs t [r] s) = runJobCalls s ++ [(markActive r, t)])
      by reflexivity.
    rewrite Hcalls, drop_app_length. reflexivity. }
  destruct n as [|n].
  - rewrite (proj2 (Nat.leb_le _ _)) in Hs2 by lia.
    exists 1%nat. intros f Hf. destruct f as [|f]; [lia|].
    cbv zeta. rewrite Hd, drive_empty by auto.
    rewrite Hc2, Hk2, map_app. unfold startedKey at 2. simpl. rewrite Hatt. auto.
  - rewrite (proj2 (Nat.leb_gt _ _)) in Hs2 by lia.
    set (d := nextRetryDelay (S (attempts r)) (backoffConfig (retryConfig P))) in *.
    set (r' := withRetryState (markActive r) false (S (attempts r)) (Some (t + d))) in *.
    set (i := Z.to_nat (Z.max 1 d - 1)).
    assert (Hr1 : active r' = false) by reflexivity.
    assert (Hr2 : attempts r' = S k) by (unfold r'; simpl; lia).
    assert (Hr3 : retryAfterElapsed (t + Z.max 1 d) (retryAfter r') = true)
      by (unfold r', retryAfterElapsed; simpl; apply Z.leb_le; lia).
    destruct (IH (S k) (t + Z.max 1 d) r' s2 Hcap ltac:(lia) ltac:(lia) Hs2 Ha2 Hr1 Hr2 Hr3)
      as [F HF].
    exists (S (i + F)). intros f Hf. destruct f as [|f]; [lia|].
    cbv zeta. rewrite Hd.
    rewrite (drive_waiting P (fun _ => Retry) r' i f (t + 1) s2); auto; [| |lia].
    + replace (t + 1 + Z.of_nat i) with (t + Z.max 1 d) by (unfold i; lia).
      destruct (HF (f - i)%nat ltac:(lia)) as (Hl & Hj).
      change (jobIdentity r') with (jobIdentity r) in Hl, Hj.
      rewrite Hl, Hj, Hc2, Hk2, map_app, <- !app_assoc. unfold startedKey at 2. simpl.
      rewrite Hatt. auto.
    + intros j Hj. unfold r'. simpl. unfold retryAfterElapsed.
      apply Z.leb_gt. unfold i in Hj. lia.
Qed.

(** X8: for a job whose every run reports "retry" and that is the only
    job in the store, with no job running, when its first attempt is due
    (a cap of at least one job, [maxAttempts >= 1]), the futures
    [getPromisesForAttempts(job, maxAttempts)] creates all resolve: the
    runner calls made from then on are keyed exactly by its started
    futures, in order, and the completions resolved from then on are
    exactly its completed futures, in order. *)
Theorem retry_promises_resolve (s : Manager) (r job : AttachmentDownloadJobType) (t0 : Z)
    (Hcap : (1 <= maxConcurrentJobs P)%nat)
    (Hmax : (1 <= maxAttempts (retryConfig P))%nat)
    (Halone : jobStore s = [r]) (Hidle : activeJobs s = [])
    (Hfresh : active r = false) (Hfirst : attempts r = 0%nat)
    (Hdue : retryAfterElapsed t0 (retryAfter r) = true)
    (Hid : jobIdentity r = jobIdentity job) :
  exists F, forall fuel, (F <= fuel)%nat ->
    let s' := drive P (fun _ => Retry) fuel t0 s in
    let promises := getPromisesForAttempts job (maxAttempts (retryConfig P)) in
    map startedKey (runJobCalls s') = map startedKey (runJobCalls s) ++ map started promises /\
    completedAttempts s' = completedAttempts s ++ map completed promises.
Proof.
  destruct (retry_single_run_keys (maxAttempts (retryConfig P)) 0 t0 r s) as [F HF];
    auto; try reflexivity.
  exists F. intros fuel Hf. destruct (HF fuel Hf) as (Hl & Hc).
  cbv zeta. unfold getPromisesForAttempts. rewrite !map_map. rewrite Hid in Hl, Hc.
  split; [exact Hl|exact Hc].
Qed.

(** *** Store, query and pass *)

Lemma find_saveJob_other (j : AttachmentDownloadJobType) (rows : list AttachmentDownloadJobType)
    (id' : JobIdentity) :
  id' <> jobIdentity j ->
  List.find (sameIdentity id') (saveJob j rows) = List.find (sameIdentity id') rows.
Proof.
  intros Hne.
  assert (Hj : sameIdentity id' j = false)
    by (apply not_true_iff_false; rewrite sameIdentity_spec; congruence).
  unfold saveJob. destruct (existsb _ rows).
  - induction rows as [|r rows IH]; simpl; auto.
    destruct (sameIdentity (jobIdentity j) r) eqn:Er.
    + apply sameIdentity_spec in Er.
      assert (Hr : sameIdentity id' r = false)
        by (apply not_true_iff_false; rewrite sameIdentity_spec; congruence).
      rewrite Hj, Hr. exact IH.
    + destruct (sameIdentity id' r); auto.
  - induction rows as [|r rows IH]; simpl; [rewrite Hj; reflexivity|].
    destruct (sameIdentity id' r); auto.
Qed.

Lemma find_removeJob (id id' : JobIdentity) (rows : list AttachmentDownloadJobType) :
  List.find (sameIdentity id') (removeJob id rows)
  = if bool_decide (id' = id) then None else List.find (sameIdentity id') rows.
Proof.
  unfold removeJob. induction rows as [|r rows IH]; simpl.
  - destruct (bool_decide _); reflexivity.
  - destruct (sameIdentity id r) eqn:Er; simpl.
    + rewrite IH. apply sameIdentity_spec in Er.
      destruct (bool_decide (id' = id)) eqn:Eb; auto.
      apply bool_decide_eq_false in Eb.
      replace (sameIdentity id' r) with false; auto.
      symmetry. apply not_true_iff_false. rewrite sameIdentity_spec. congruence.
    + destruct (sameIdentity id' r) eqn:Er'.
      * destruct (bool_decide (id' = id)) eqn:Eb; auto.
        apply bool_decide_eq_true in Eb. subst id'. congruence.
      * exact IH.
Qed.

Lemma length_saveJob (j : AttachmentDownloadJobType) (rows : list AttachmentDownloadJobType) :
  length (saveJob j rows)
  = (length rows + if existsb (sameIdentity (jobIdentity j)) rows then 0 else 1)%nat.
Proof.
  unfold saveJob. destruct (existsb _ rows).
  - rewrite length_map. lia.
  - rewrite length_app. reflexivity.
Qed.

Lemma getNextJobs_In_eligible (s : Manager) (now : Z) (k : nat) (j : AttachmentDownloadJobType) :
  In j (getNextJobs s now k) -> In j (jobStore s) /\ isEligible s now j = true.
Proof.
  unfold getNextJobs. intros Hj.
  assert (Hin : In j (merge_sort (prioBefore (visibleTimelineMessages s))
                       (List.filter (isEligible s now) (jobStore s)))).
  { rewrite <- (take_drop k (merge_sort _ _)). apply in_or_app. left. exact Hj. }
  apply (Permutation_in _ (merge_sort_Permutation _ _)) in Hin.
  apply filter_In in Hin. exact Hin.
Qed.

Lemma getNextJobs_NoDup (s : Manager) (now : Z) (k : nat) :
  List.NoDup (map jobIdentity (jobStore s)) ->
  List.NoDup (map jobIdentity (getNextJobs s now k)).
Proof.
  intros Hnd. unfold getNextJobs.
  set (M := merge_sort _ _).
  assert (HM : List.NoDup (map jobIdentity M)).
  { apply (Permutation_NoDup (Permutation_map jobIdentity
             (Permutation_sym (merge_sort_Permutation _ _)))).
    apply NoDup_map_filter. exact Hnd. }
  rewrite <- (take_drop k M), map_app in HM.
  exact (List.NoDup_app_remove_r _ _ HM).
Qed.

Lemma pass_shape (now : Z) (h : bool) (s : Manager) :
  exists js,
    maybeStartJobs P now h s = s /\ js = [] \/
    (h = false /\ js = getNextJobs s now (availableSlots P s) /\ js <> [] /\
     maybeStartJobs P now h s = startJobs now js s).
Proof.
  unfold maybeStartJobs. destruct h; [exists []; left; auto|].
  destruct (_ =? 0)%nat; [exists []; left; auto|].
  destruct (getNextJobs s now (availableSlots P s)) as [|j js] eqn:Hg;
    [exists []; left; auto|].
  exists (j :: js). right. repeat split; auto; discriminate.
Qed.

(** X9: [saveAttachmentDownloadJob] as insert/lookup: looking the saved
    job's identity up gives the saved job, other identities look up what
    they did before, a row is added only for a new identity, and the store
    keeps at most one row per identity. *)
Theorem saveJob_lookup (j : AttachmentDownloadJobType) (rows : list AttachmentDownloadJobType) :
  List.find (sameIdentity (jobIdentity j)) (saveJob j rows) = Some j /\
  (forall id', id' <> jobIdentity j ->
     List.find (sameIdentity id') (saveJob j rows) = List.find (sameIdentity id') rows) /\
  length (saveJob j rows)
    = (length rows + if existsb (sameIdentity (jobIdentity j)) rows then 0 else 1)%nat /\
  (List.NoDup (map jobIdentity rows) -> List.NoDup (map jobIdentity (saveJob j rows))).
Proof.
  split; [apply find_saveJob|]. split; [intros id' Hne; apply find_saveJob_other; exact Hne|].
  split; [apply length_saveJob|]. apply NoDup_saveJob.
Qed.

(** X10: [removeAttachmentDownloadJob] as delete/lookup: afterwards the
    identity looks up nothing, other identities look up what they did
    before, and the rows kept are exactly those of other identities. *)
Theorem removeJob_lookup (id : JobIdentity) (rows : list AttachmentDownloadJobType) :
  List.find (sameIdentity id) (removeJob id rows) = None /\
  (forall id', id' <> id ->
     List.find (sameIdentity id') (removeJob id rows) = List.find (sameIdentity id') rows) /\
  (forall r, In r (removeJob id rows) <-> In r rows /\ jobIdentity r <> id).
Proof.
  split; [rewrite find_removeJob, bool_decide_true; auto|].
  split; [|apply removeJob_In].
  intros id' Hne. rewrite find_removeJob, bool_decide_false; auto.
Qed.

(** X11: the store query returns [min(limit, #eligible)] eligible rows of
    the store in priority order, and every eligible row it leaves out comes
    after each row it returns. *)
Theorem getNextJobs_top (s : Manager) (now : Z) (limit : nat) :
  let vis := visibleTimelineMessages s in
  let res := getNextJobs s now limit in
  length res = min limit (length (List.filter (isEligible s now) (jobStore s))) /\
  (forall j, In j res -> In j (jobStore s) /\ isEligible s now j = true) /\
  StronglySorted (prioBefore vis) res /\
  (forall j e, In j res -> In e (jobStore s) -> isEligible s now e = true -> ~ In e res ->
     prioBefore vis j e).
Proof.
  cbv zeta.
  pose proof (getNextJobs_sorted s now limit) as Hs.
  pose proof (merge_sort_Permutation (prioBefore (visibleTimelineMessages s))
                (List.filter (isEligible s now) (jobStore s))) as Hp.
  set (M := merge_sort _ _) in *.
  rewrite <- (take_drop limit M) in Hs. apply SS_app in Hs as (Hs1 & _ & Hs3).
  split; [unfold getNextJobs; fold M; rewrite length_take, (Permutation_length Hp); reflexivity|].
  split; [apply getNextJobs_In_eligible|].
  split; [exact Hs1|].
  intros j e Hj He Hel Hnot. unfold getNextJobs in *. fold M in Hj, Hnot.
  apply Hs3; auto.
  assert (HeM : In e M) by (apply (Permutation_in _ (Permutation_sym Hp)), filter_In; auto).
  rewrite <- (take_drop limit M) in HeM. apply in_app_or in HeM as [HeM|HeM]; tauto.
Qed.

(** X12: one scheduling pass only hands rows of the store that are eligible
    to the runner, at most as many as there are free slots and none while
    held off; it keeps the earlier runner calls and marks the started jobs
    active. *)
Theorem maybeStartJobs_dispatch (now : Z) (h : bool) (s : Manager) :
  exists js,
    let s' := maybeStartJobs P now h s in
    runJobCalls s' = runJobCalls s ++ map (fun j => (markActive j, now)) js /\
    activeJobs s' = activeJobs s ++ map markActive js /\
    (h = true -> js = []) /\
    (length js <= availableSlots P s)%nat /\
    (forall j, In j js -> In j (jobStore s) /\ isEligible s now j = true).
Proof.
  destruct (pass_shape now h s) as (js & [[Hq ->]|(Hh & Hjs & Hne & Hq)]).
  - exists []. cbv zeta. rewrite Hq, !app_nil_r.
    split; [reflexivity|]. split; [reflexivity|]. split; [auto|].
    split; [simpl; lia|]. intros x [].
  - exists js. cbv zeta. rewrite Hq. cbn [startJobs runJobCalls activeJobs].
    rewrite map_map. split; [reflexivity|]. split; [reflexivity|].
    split; [intros; congruence|].
    split; [subst js; unfold getNextJobs; rewrite length_take; lia|].
    intros j Hj. subst js. apply getNextJobs_In_eligible in Hj. exact Hj.
Qed.

(** *** Completions *)

(** X14: a "finished" result for an active job deletes the job's row and
    no other, takes the job out of the active set, resolves its
    [(identity, attempts)] future and starts nothing. *)
Theorem finished_removes_job (id : JobIdentity) (now : Z) (s : Manager)
    (job : AttachmentDownloadJobType)
    (Hactive : List.find (sameIdentity id) (activeJobs s) = Some job) :
  exists s',
    onJobCompleted P id Finished now s = Some s' /\
    List.find (sameIdentity id) (jobStore s') = None /\
    (forall id', id' <> id ->
       List.find (sameIdentity id') (jobStore s') = List.find (sameIdentity id') (jobStore s)) /\
    isActiveIdentity s' id = false /\
    completedAttempts s' = completedAttempts s ++ [(id, attempts job)] /\
    runJobCalls s' = runJobCalls s.
Proof.
  unfold onJobCompleted. rewrite Hactive. eexists. split; [reflexivity|].
  cbn [jobStore activeJobs completedAttempts runJobCalls].
  split; [rewrite find_removeJob, bool_decide_true; auto|].
  split; [intros id' Hne; rewrite find_removeJob, bool_decide_false; auto|].
  split; [apply existsb_removeJob|]. auto.
Qed.

(** X15: a "retry" result for an active job with attempts to spare saves
    its row with one more attempt, inactive, and [retryAfter] set to now
    plus [nextRetryDelay]; other rows stay, the job leaves the active set
    and its [(identity, attempts)] future is resolved. *)
Theorem retry_reschedules_job (id : JobIdentity) (now : Z) (s : Manager)
    (job : AttachmentDownloadJobType)
    (Hactive : List.find (sameIdentity id) (activeJobs s) = Some job)
    (Hbelow : (S (attempts job) < maxAttempts (retryConfig P))%nat) :
  exists s',
    onJobCompleted P id Retry now s = Some s' /\
    List.find (sameIdentity id) (jobStore s')
      = Some (withRetryState job false (S (attempts job))
                (Some (now + nextRetryDelay (S (attempts job)) (backoffConfig (retryConfig P))))) /\
    (forall id', id' <> id ->
       List.find (sameIdentity id') (jobStore s') = List.find (sameIdentity id') (jobStore s)) /\
    isActiveIdentity s' id = false /\
    completedAttempts s' = completedAttempts s ++ [(id, attempts job)].
Proof.
  pose proof Hactive as Hf. apply find_some in Hf as [_ Hid]. apply sameIdentity_spec in Hid.
  unfold onJobCompleted. rewrite Hactive.
  rewrite (proj2 (Nat.leb_gt _ _)) by lia.
  eexists. split; [reflexivity|]. cbn [jobStore activeJobs completedAttempts].
  split.
  { rewrite <- Hid. rewrite <- (jobIdentity_withRetryState job false (S (attempts job))
        (Some (now + nextRetryDelay (S (attempts job)) (backoffConfig (retryConfig P))))) at 1.
    apply find_saveJob. }
  split; [intros id' Hne; apply find_saveJob_other; rewrite jobIdentity_withRetryState; congruence|].
  split; [apply existsb_removeJob|]. reflexivity.
Qed.

(** *** Along a run *)

Lemma not_active_identity (s : Manager) (j : AttachmentDownloadJobType) :
  isActiveIdentity s (jobIdentity j) = false -> ~ In (jobIdentity j) (map jobIdentity (activeJobs s)).
Proof.
  unfold isActiveIdentity. intros H Hin. apply in_map_iff in Hin as (a & Ha & Hin).
  rewrite existsb_sameIdentity_false in H. exact (H a Hin Ha).
Qed.

Lemma startJobs_unique (now : Z) (js : list AttachmentDownloadJobType) (s : Manager) :
  uniqueJobs s -> List.NoDup (map jobIdentity js) ->
  (forall j, In j js -> isActiveIdentity s (jobIdentity j) = false) ->
  uniqueJobs (startJobs now js s).
Proof.
  intros [H1 H2] Hjs Hfree. split.
  - rewrite store_startJobs_identity. exact H1.
  - cbn [startJobs activeJobs]. rewrite map_app, map_map. apply List.NoDup_app;
      [exact H2|exact Hjs|].
    intros x Hx Hy. apply in_map_iff in Hy as (j & <- & Hj).
    exact (not_active_identity s j (Hfree j Hj) Hx).
Qed.

Lemma pass_unique (now : Z) (h : bool) (s : Manager) :
  uniqueJobs s -> uniqueJobs (maybeStartJobs P now h s).
Proof.
  intros U. destruct (pass_shape now h s) as (js & [[Hq _]|(_ & Hjs & _ & Hq)]); rewrite Hq; auto.
  apply startJobs_unique; auto.
  - subst js. apply getNextJobs_NoDup. exact (proj1 U).
  - intros j Hj. subst js. apply getNextJobs_In_eligible in Hj as [_ Hel].
    unfold isEligible in Hel. apply andb_prop in Hel as [_ Hel]. apply negb_true_iff in Hel.
    exact Hel.
Qed.

Lemma step_unique (s s' : Manager) (e : Event) :
  uniqueJobs s -> step P s e = Some s' -> uniqueJobs s'.
Proof.
  intros U Hs. destruct e as [job u now h|now h|ids now h|id st now]; simpl in Hs.
  - injection Hs as <-. unfold addJob.
    assert (U1 : uniqueJobs (setJobStore (saveJob (newJobRow job) (jobStore s)) s)).
    { destruct U as [U1 U2]. split; [apply NoDup_saveJob; exact U1|exact U2]. }
    destruct u; [exact U1|].
    destruct h; [exact U1|]. destruct (_ =? 0)%nat; [exact U1|].
    destruct (isEligible _ now (newJobRow job)) eqn:Hel; [|exact U1].
    apply startJobs_unique; auto.
    + repeat constructor. intros [].
    + intros j [<-|[]]. unfold isEligible in Hel. apply andb_prop in Hel as [_ Hel].
      apply negb_true_iff in Hel. exact Hel.
  - injection Hs as <-. apply pass_unique. exact U.
  - injection Hs as <-. unfold updateVisibleTimelineMessages. apply pass_unique. exact U.
  - destruct (onJobCompleted_shape P id st now s s' Hs) as (_ & _ & Hact & _ & _ & _ & Hnd).
    destruct U as [U1 U2]. split; [apply Hnd; exact U1|].
    rewrite Hact. apply NoDup_map_filter. exact U2.
Qed.

Lemma run_unique (evs : list Event) :
  forall s s', uniqueJobs s -> run P s evs = Some s' -> uniqueJobs s'.
Proof.
  induction evs as [|e evs IH]; intros s s' U Hrun; simpl in Hrun.
  - injection Hrun as <-. exact U.
  - destruct (step P s e) as [s1|] eqn:Hs; [|discriminate].
    apply (IH s1); auto. apply (step_unique s s1 e); auto.
Qed.

(** X16: along every run from an empty manager, whatever the events, no
    more than [maxConcurrentJobs] jobs are active. *)
Theorem run_respects_cap (evs : list Event) (s : Manager)
    (Hrun : run P emptyManager evs = Some s) :
  (length (activeJobs s) <= maxConcurrentJobs P)%nat.
Proof. apply (run_active_bound P evs emptyManager s); [simpl; lia|exact Hrun]. Qed.

(** X17: along every run from an empty manager, the store holds at most
    one row per job identity and the active set at most one job per
    identity: a job is never run twice at once. *)
Theorem run_unique_jobs (evs : list Event) (s : Manager)
    (Hrun : run P emptyManager evs = Some s) :
  List.NoDup (map jobIdentity (jobStore s)) /\ List.NoDup (map jobIdentity (activeJobs s)).
Proof.
  apply (run_unique evs emptyManager s); [split; constructor|exact Hrun].
Qed.

End Extras.

(** ** The call guard, urgent jobs and the retry schedule over whole runs *)

Section Schedules.
Variable P : ManagerParams.












(** C9 (amended): the two urgencies persist the same row, and the
    STANDARD add starts nothing.  When the call guard allows it, a slot is
    free and the job is eligible, the IMMEDIATE add starts that job, on
    its own, at enqueue time; otherwise it is the STANDARD add.  Nothing
    of the urgency is kept in the manager's state. *)
Theorem immediate_only_starts_at_enqueue (job : AttachmentDownloadJobType) (now : Z)
    (holdOff : bool) (s : Manager) :
  let std := addJob P job STANDARD now holdOff s in
  let row := newJobRow job in
  jobStore std = saveJob row (jobStore s) /\
  activeJobs std = activeJobs s /\
  runJobCalls std = runJobCalls s /\
  (holdOff = false -> availableSlots P std <> 0%nat -> isEligible std now row = true ->
     addJob P job IMMEDIATE now holdOff s = startJobs now [row] std /\
     activeJobs (addJob P job IMMEDIATE now holdOff s) = activeJobs s ++ [markActive row] /\
     runJobCalls (addJob P job IMMEDIATE now holdOff s) = runJobCalls s ++ [(markActive row, now)]) /\
  (holdOff = true \/ availableSlots P std = 0%nat \/ isEligible std now row = false ->
     addJob P job IMMEDIATE now holdOff s = std).
Proof.
  intros std row.
  assert (Hi : addJob P job IMMEDIATE now holdOff s
               = if holdOff then std
                 else if (availableSlots P std =? 0)%nat then std
                 else if isEligible std now row then startJobs now [row] std else std)
    by reflexivity.
  split; [reflexivity|]. split; [reflexivity|]. split; [reflexivity|].
  rewrite Hi. split.
  - intros -> Hslot Hel. apply Nat.eqb_neq in Hslot. rewrite Hslot, Hel.
    split; [reflexivity|]. split; reflexivity.
  - intros [->|[Hslot|Hel]]; [reflexivity| |].
    + rewrite Hslot. destruct holdOff; reflexivity.
    + rewrite Hel. destruct holdOff, (availableSlots P std =? 0)%nat; reflexivity.
Qed.


End Schedules.

(** ** Further properties: backoff and runner *)

(** X19: past [firstBackoffs], with a multiplier of at least one and a
    non-negative last first backoff, the wait never shrinks from one
    attempt to the next and never exceeds [maxBackoffTime]. *)
Theorem nextRetryDelay_grows_capped (cfg : BackoffConfig) (k : nat)
    (Hm : 1 <= multiplier cfg) (Hl : 0 <= List.last (firstBackoffs cfg) 0)
    (Hk : (length (firstBackoffs cfg) < k)%nat) :
  nextRetryDelay k cfg <= nextRetryDelay (S k) cfg <= maxBackoffTime cfg.
Proof.
  unfold nextRetryDelay.
  rewrite (proj2 (Nat.leb_gt _ _)) by lia. rewrite (proj2 (Nat.leb_gt _ _)) by lia.
  set (L := List.last (firstBackoffs cfg) 0).
  replace (Z.of_nat (S k - length (firstBackoffs cfg)))
    with (Z.succ (Z.of_nat (k - length (firstBackoffs cfg)))) by lia.
  rewrite Z.pow_succ_r by lia.
  set (e := multiplier cfg ^ Z.of_nat (k - length (firstBackoffs cfg))).
  assert (He : 0 <= e) by (apply Z.pow_nonneg; lia).
  assert (L * e <= L * (multiplier cfg * e)) by nia.
  lia.
Qed.

(** X20: a runner invocation makes at most two downloader calls, all for
    the job's attachment, and it rejects exactly when every call it made
    threw. *)
Theorem runner_rejects_iff_all_failed (dl : Downloader) (job : AttachmentDownloadJobType)
    (isForCurrentlyVisibleMessage : bool) :
  let r := runDownloadAttachmentJobInner dl job isForCurrentlyVisibleMessage in
  (length r.1 <= 2)%nat /\
  Forall (fun c => call_attachment c = attachment job) r.1 /\
  (r.2 = None <-> forallb (callFailed dl) r.1 = true).
Proof.
  unfold runDownloadAttachmentJobInner, downloadFull, try_catch, bind,
    downloadAttachment, ret, throw.
  destruct isForCurrentlyVisibleMessage;
    destruct (hasBackupLocator (attachment job)) eqn:Hloc;
    destruct (hasThumbnailFromBackup (attachment job)) eqn:Hth;
    destruct (dl (attachment job) ThumbnailFromBackup) as [t|] eqn:Ht;
    destruct (dl (attachment job) Default) as [d|] eqn:Hd; simpl;
    unfold callFailed; simpl; rewrite ?Ht, ?Hd;
    (split; [lia|]);
    (split; [repeat (apply List.Forall_cons; [reflexivity|]); apply List.Forall_nil|]);
    split; intros; first [reflexivity | discriminate].
Qed.

(** X21: when the runner goes straight to the full download (a message
    that is not visible, or an attachment with no backup locator or with a
    backup thumbnail already) and that download succeeds, it makes that one
    call and returns the attachment with the downloaded path, iv and
    plaintext hash. *)
Theorem runner_default_success (dl : Downloader) (job : AttachmentDownloadJobType)
    (isForCurrentlyVisibleMessage : bool) (d : DownloadedAttachment)
    (Hd : dl (attachment job) Default = Some d)
    (Hdirect : isForCurrentlyVisibleMessage = false \/
               hasBackupLocator (attachment job) = false \/
               hasThumbnailFromBackup (attachment job) = true) :
  runDownloadAttachmentJobInner dl job isForCurrentlyVisibleMessage
  = ([{| call_attachment := attachment job; call_variant := Default |}],
     Some (FullAttempt (mergeDownloaded (attachment job) d))).
Proof.
  unfold runDownloadAttachmentJobInner, downloadFull, try_catch, bind, downloadAttachment, ret.
  rewrite Hd.
  destruct isForCurrentlyVisibleMessage; [|reflexivity].
  destruct Hdirect as [H|[H|H]]; [discriminate| |]; rewrite H; simpl;
    [reflexivity|rewrite andb_false_r; reflexivity].
Qed.

(** ** Witnesses for the further properties *)

Lemma assertRunJobCalledWith_composed_witness :
  assertRunJobCalledWith
    (drive testParams (fun _ => Finished) 3 0 (addJobs testParams (jobsN 5) emptyManager))
    (rev (jobsN 5)) = true.
Proof.
  apply (proj2 (assertRunJobCalledWith_composed
                  (drive testParams (fun _ => Finished) 3 0 (addJobs testParams (jobsN 5) emptyManager))
                  (rev (jobsN 5)) ltac:(vm_compute; reflexivity) ltac:(vm_compute; reflexivity))).
  vm_compute. reflexivity.
Defined.

(** The job of message "ab" and a job of message "a" with attachment type
    "battachment" have different identities and the same key. *)
Lemma callKey_boundary_collision_witness :
  let s := maybeStartJobs testParams 0 false
             (addJob testParams (composeJob "ab" 0) STANDARD 0 false emptyManager) in
  let other := {| messageId := "a"; attachmentType := "battachment"; digest := "digestForab";
                  receivedAt := 0; sentAt := 0; contentType := "image/png"; size := 128;
                  active := false; attempts := 0; retryAfter := None;
                  lastAttemptTimestamp := None; attachment := emptyAttachment "digestForab" |} in
  assertRunJobCalledWith s [other] = true /\ jobIdentity other <> jobIdentity (composeJob "ab" 0).
Proof.
  intros s other. split.
  - rewrite <- (callKey_boundary_collision s [composeJob "ab" 0] [other]
                  ltac:(constructor; [split; vm_compute; reflexivity|constructor])).
    vm_compute. reflexivity.
  - vm_compute. intros H. inversion H.
Defined.

Lemma advanceTime_ticks_witness :
  exists l, advanceTime 200 None 0 120000 = Some l /\ length l = 120%nat.
Proof.
  destruct (advanceTime_ticks 200 None 0 120000 ltac:(vm_compute; reflexivity)
              ltac:(vm_compute; lia)) as [H _].
  eexists. split; [exact H|]. rewrite length_map, length_seq. vm_compute. reflexivity.
Defined.

Lemma advanceTime_stalls_witness : advanceTime 10 (Some 0) 0 1000 = None.
Proof. apply (advanceTime_stalls 10 (Some 0) 0 1000); [reflexivity|cbn; lia]. Defined.

Lemma retry_promises_resolve_witness :
  exists F, forall fuel, (F <= fuel)%nat ->
    completedAttempts (failingRun testParams fuel)
    = map completed (getPromisesForAttempts (composeJob "message-0" 0) 5).
Proof.
  destruct (retry_promises_resolve testParams
              (addJob testParams (composeJob "message-0" 0) STANDARD 0 false emptyManager)
              (composeJob "message-0" 0) (composeJob "message-0" 0) 0
              ltac:(vm_compute; lia) ltac:(vm_compute; lia) ltac:(reflexivity) ltac:(reflexivity)
              ltac:(reflexivity) ltac:(reflexivity) ltac:(reflexivity) ltac:(reflexivity))
    as [F HF].
  exists F. intros fuel Hf. destruct (HF fuel Hf) as [_ H]. exact H.
Defined.

Lemma finished_removes_job_witness :
  exists s',
    onJobCompleted testParams (jobIdentity (composeJob "message-0" 0)) Finished 900 lastAttemptState
      = Some s' /\
    List.find (sameIdentity (jobIdentity (composeJob "message-0" 0))) (jobStore s') = None.
Proof.
  destruct (finished_removes_job testParams (jobIdentity (composeJob "message-0" 0)) 900
              lastAttemptState lastAttemptJob ltac:(vm_compute; reflexivity)) as (s' & H1 & H2 & _).
  exists s'. split; [exact H1|exact H2].
Defined.

Lemma retry_reschedules_job_witness :
  exists s',
    onJobCompleted testParams (jobIdentity (composeJob "message-0" 0)) Retry 0
      (maybeStartJobs testParams 0 false
         (addJob testParams (composeJob "message-0" 0) STANDARD 0 false emptyManager)) = Some s' /\
    option_map retryAfter
      (List.find (sameIdentity (jobIdentity (composeJob "message-0" 0))) (jobStore s'))
    = Some (Some 60).
Proof.
  destruct (retry_reschedules_job testParams (jobIdentity (composeJob "message-0" 0)) 0
              (maybeStartJobs testParams 0 false
                 (addJob testParams (composeJob "message-0" 0) STANDARD 0 false emptyManager))
              (markActive (composeJob "message-0" 0)) ltac:(vm_compute; reflexivity)
              ltac:(vm_compute; lia)) as (s' & H1 & H2 & _).
  exists s'. split; [exact H1|]. rewrite H2. vm_compute. reflexivity.
Defined.

Lemma run_respects_cap_witness :
  let evs := [EvAddJob (composeJob "message-0" 0) STANDARD 0 false;
              EvAddJob (composeJob "message-1" 1) IMMEDIATE 0 false;
              EvTick 0 false;
              EvJobDone (jobIdentity (composeJob "message-1" 1)) Retry 0;
              EvTick 60 false] in
  let s := match run testParams emptyManager evs with Some s => s | None => emptyManager end in
  run testParams emptyManager evs = Some s /\ (length (activeJobs s) <= 3)%nat.
Proof.
  intros evs s. split; [vm_compute; reflexivity|].
  apply (run_respects_cap testParams evs s ltac:(vm_compute; reflexivity)).
Defined.

Lemma run_unique_jobs_witness :
  let evs := [EvAddJob (composeJob "message-0" 0) STANDARD 0 false;
              EvAddJob (composeJob "message-0" 0) IMMEDIATE 0 false;
              EvAddJob (composeJob "message-0" 0) STANDARD 0 false;
              EvTick 0 false] in
  let s := match run testParams emptyManager evs with Some s => s | None => emptyManager end in
  run testParams emptyManager evs = Some s /\ List.NoDup (map jobIdentity (activeJobs s)).
Proof.
  intros evs s. split; [vm_compute; reflexivity|].
  apply (run_unique_jobs testParams evs s ltac:(vm_compute; reflexivity)).
Defined.

Lemma nextRetryDelay_grows_capped_witness :
  nextRetryDelay 2 (backoffConfig (retryConfig testParams))
  <= nextRetryDelay 3 (backoffConfig (retryConfig testParams)) <= 600.
Proof.
  apply (nextRetryDelay_grows_capped (backoffConfig (retryConfig testParams)) 2);
    vm_compute; try lia; discriminate.
Defined.

Lemma runner_default_success_witness :
  runDownloadAttachmentJobInner okDownloader (composeJob "message-0" 0) true
  = ([{| call_attachment := attachment (composeJob "message-0" 0); call_variant := Default |}],
     Some (FullAttempt (mergeDownloaded (attachment (composeJob "message-0" 0)) stubResult))).
Proof.
  apply (runner_default_success okDownloader (composeJob "message-0" 0) true stubResult);
    [reflexivity|right; left; reflexivity].
Defined.

(** ** Witnesses for the call guard, urgent jobs and the retry schedule *)



(** The urgent job of the test is started on its own at enqueue time. *)
Lemma immediate_only_starts_at_enqueue_witness :
  callLog (addJob testParams urgentJob IMMEDIATE 1 false
             (drive testParams (fun _ => Finished) 1 0 (addJobs testParams (jobsN 6) emptyManager)))
  = callLog (drive testParams (fun _ => Finished) 1 0 (addJobs testParams (jobsN 6) emptyManager))
    ++ [("message-urgent", 0%nat, 1)].
Proof.
  destruct (immediate_only_starts_at_enqueue testParams urgentJob 1 false
              (drive testParams (fun _ => Finished) 1 0 (addJobs testParams (jobsN 6) emptyManager)))
    as (_ & _ & _ & H & _).
  destruct (H eq_refl ltac:(vm_compute; discriminate) ltac:(vm_compute; reflexivity))
    as (_ & _ & Hc).
  unfold callLog. rewrite Hc, map_app. reflexivity.
Defined.
